(** * Weighted DCG calculator (src/metric/weighted_dcg_calculator.cpp)

    A shallow embedding of [WeightedDCGCalculator]: the gain formula, the
    discount table built by [Init], the ideal and observed DCG engines and
    the two validators, followed by the properties of the specification.

    Numbers.  [double] and [label_t] are idealised as real numbers: sums,
    products, quotients and [std::log2] are the exact real operations, so
    rounding, infinities and NaN are outside the model.  [int] and
    [data_size_t] are 32-bit signed integers carried by [Z]; where the source
    can overflow ([(1 << l) - 1], the difference of two query boundaries) the
    two's-complement wrap-around is written out.

    Effects.  The class has two static vectors, [label_gain_] and
    [discount_]; they form the record [statics].  Member functions run in a
    state-and-error monad over [statics]: an array access outside the array
    is the error [OutOfRange], [Log::Fatal] is the error [Fatal]. *)

From Stdlib Require Import Reals ZArith List Bool Lia Lra Permutation Sorted.
Import ListNotations.
Local Open Scope Z_scope.

(** ** Numeric types *)

Definition double : Type := R.

(** Modelled from the spec: the typedefs [label_t] and [data_size_t] are
    declared in a header outside this file.  The spec gives item counts,
    cutoffs and boundaries as [int] and labels as integer-valued numbers
    that CheckLabel tests for integrality, hence a real-valued label and a
    32-bit integer size. *)
Definition label_t : Type := R.
Definition data_size_t : Type := Z.
Bind Scope R_scope with double label_t.

Definition int_min : Z := - 2 ^ 31.
Definition int_max : Z := 2 ^ 31 - 1.

(** Two's-complement reduction of an integer to 32 bits. *)
Definition wrap_int (z : Z) : Z := (z + 2 ^ 31) mod 2 ^ 32 - 2 ^ 31.

(** [static_cast<int>(x)] and the implicit conversion of a [label_t] to
    [int]: truncation toward zero.  (C++ defines the conversion when the
    truncated value fits the target type; the model is the truncated
    value itself.) *)
Definition static_cast_int (x : R) : Z :=
  if Rle_dec 0 x then Zfloor x else Zceil x.

(** [std::log2]. *)
Definition log2 (x : R) : R := (ln x / ln 2)%R.

(** ** Static members and the monad of member functions *)

Record statics : Type := mkStatics {
  label_gain_ : list double;
  discount_ : list double
}.

Definition kMaxPosition : data_size_t := 10000.

(** Modelled from the spec: [Log::Fatal] and [CHECK_GT] are declared in a
    header outside this file.  The spec describes the fatal-reporting sink
    as logging a formatted message and unconditionally terminating the
    current computation: here an error that ends the run, tagged by the
    message. *)
Inductive fatal_kind : Type :=
| LabelNotInt        (* "label should be int type ..." *)
| LabelNegative      (* "Label should be non-negative ..." *)
| LabelTooLarge      (* "Label %zu is not less than the number of label mappings" *)
| QueryTooLong       (* "Number of rows %i exceeds upper limit ..." *)
| CheckFailed.       (* CHECK_GT *)

Inductive error : Type :=
| OutOfRange                 (* access outside an array or vector *)
| LengthError                (* std::vector constructed with a negative size *)
| Fatal (why : fatal_kind).  (* Log::Fatal *)

Inductive outcome (A : Type) : Type :=
| Ok (a : A) (st : statics)
| Err (e : error).
Arguments Ok {A} a st.
Arguments Err {A} e.

Definition M (A : Type) : Type := statics -> outcome A.

Definition ret {A} (a : A) : M A := fun st => Ok a st.

Definition bind {A B} (m : M A) (f : A -> M B) : M B :=
  fun st => match m st with
            | Ok a st' => f a st'
            | Err e => Err e
            end.

Definition raise {A} (e : error) : M A := fun _ => Err e.

Definition get_label_gain : M (list double) := fun st => Ok (label_gain_ st) st.
Definition get_discount : M (list double) := fun st => Ok (discount_ st) st.
Definition put_label_gain (v : list double) : M unit :=
  fun st => Ok tt (mkStatics v (discount_ st)).
Definition put_discount (v : list double) : M unit :=
  fun st => Ok tt (mkStatics (label_gain_ st) v).

Declare Scope cxx_scope.
Delimit Scope cxx_scope with cxx.
Notation "x <- m ;; k" := (bind m (fun x => k))
  (at level 61, m at next level, right associativity) : cxx_scope.
Notation "m ;; k" := (bind m (fun _ => k))
  (at level 61, right associativity) : cxx_scope.
Local Open Scope cxx_scope.

(** ** Arrays and vectors *)

(** [v[j]] as an rvalue. *)
Definition read {A} (v : list A) (j : Z) : M A :=
  if j <? 0 then raise OutOfRange
  else match nth_error v (Z.to_nat j) with
       | Some x => ret x
       | None => raise OutOfRange
       end.

Fixpoint set_nth {A} (v : list A) (n : nat) (x : A) : list A :=
  match v, n with
  | [], _ => []
  | _ :: v', O => x :: v'
  | y :: v', S n' => y :: set_nth v' n' x
  end.

(** [v[j] = x]. *)
Definition write {A} (v : list A) (j : Z) (x : A) : M (list A) :=
  if (j <? 0) || (Z.of_nat (length v) <=? j) then raise OutOfRange
  else ret (set_nth v (Z.to_nat j) x).

(** [std::vector<T> v(n)], value-initialised. *)
Definition vector_new {A} (zero : A) (n : Z) : M (list A) :=
  if n <? 0 then raise LengthError else ret (repeat zero (Z.to_nat n)).

(** [v.resize(n)]. *)
Definition resize {A} (zero : A) (v : list A) (n : nat) : list A :=
  firstn n v ++ repeat zero (n - length v).

(** ** Loops *)

(** [n] iterations of [body] with the counter starting at [j]. *)
Fixpoint iterate {T} (body : Z -> T -> M T) (j : Z) (n : nat) (s : T) : M T :=
  match n with
  | O => ret s
  | S n' => s' <- body j s ;; iterate body (j + 1) n' s'
  end.

(** [for (j = lo; j < hi; ++j) body], the loop's variables being [s]. *)
Definition for_loop {T} (lo hi : Z) (body : Z -> T -> M T) (s : T) : M T :=
  iterate body lo (Z.to_nat (hi - lo)) s.

(** ** Sorting *)

Fixpoint insert_asc (x : R) (l : list R) : list R :=
  match l with
  | [] => [x]
  | y :: l' => if Rle_dec x y then x :: l else y :: insert_asc x l'
  end.

(** [std::sort(v.begin(), v.end())] on doubles: the ascending arrangement
    of the values (unique, see [sort_asc_unique]). *)
Fixpoint sort_asc (l : list R) : list R :=
  match l with
  | [] => []
  | x :: l' => insert_asc x (sort_asc l')
  end.

(** [std::stable_sort] with a comparator that may read arrays: [x] is
    placed behind the elements [y] that satisfy [comp y x] and before the
    first that does not, so equivalent elements keep their order. *)
Fixpoint stable_insert {A} (comp : A -> A -> M bool) (x : A) (l : list A)
  : M (list A) :=
  match l with
  | [] => ret [x]
  | y :: l' =>
      b <- comp y x ;;
      if b then (r <- stable_insert comp x l' ;; ret (y :: r))
      else ret (x :: l)
  end.

Fixpoint stable_sort {A} (comp : A -> A -> M bool) (l : list A) : M (list A) :=
  match l with
  | [] => ret []
  | x :: l' => s <- stable_sort comp l' ;; stable_insert comp x s
  end.

(** ** The calculator *)

(** [double CalGain(int l, double th1, double th2)].  The last branch is
    [static_cast<double>((1 << l) - 1)], computed in [int]. *)
Definition CalGain (l : Z) (th1 th2 : double) : double :=
  if l =? 0 then 0%R
  else if l =? 1 then (1 / th1)%R
  else if l =? 2 then (2 / (th1 * th2) + 1 / th1)%R
  else IZR (wrap_int (wrap_int (Z.shiftl 1 l) - 1)).

(** [static_cast<size_t>(x)]: the same truncation; the source reaches it
    only with [x >= 0]. *)
Definition static_cast_size_t (x : R) : Z := static_cast_int x.

Definition Rgt_bool (x y : R) : bool := if Rgt_dec x y then true else false.
Definition Rlt_bool (x y : R) : bool := if Rlt_dec x y then true else false.

(** [void DefaultEvalAt(std::vector<int>* eval_at)]: the vector is
    returned. *)
Definition DefaultEvalAt (eval_at : list Z) : M (list Z) :=
  match eval_at with
  | [] => for_loop 1 6 (fun i v => ret (v ++ [i])) eval_at
  | _ =>
      for_loop 0 (Z.of_nat (length eval_at))
        (fun i v =>
           x <- read v i ;;
           if x >? 0 then ret v else raise (Fatal CheckFailed))
        eval_at
  end.

(** [void DefaultLabelGain(std::vector<double>* label_gain)]: the vector
    is returned. *)
Definition DefaultLabelGain (label_gain : list double) : M (list double) :=
  match label_gain with
  | _ :: _ => ret label_gain
  | [] =>
      let max_label := 31 in
      for_loop 1 max_label
        (fun i v => ret (v ++ [IZR (wrap_int (wrap_int (Z.shiftl 1 i) - 1))]))
        (label_gain ++ [0%R])
  end.

(** [void Init(const std::vector<double>& input_label_gain)]: both static
    vectors are resized and then assigned entry by entry. *)
Definition Init (input_label_gain : list double) : M unit :=
  lg <- get_label_gain ;;
  lg <- for_loop 0 (Z.of_nat (length input_label_gain))
          (fun i lg => x <- read input_label_gain i ;; write lg i x)
          (resize 0%R lg (length input_label_gain)) ;;
  put_label_gain lg ;;
  d <- get_discount ;;
  d <- for_loop 0 kMaxPosition
         (fun i d => write d i (1 / log2 (2 + IZR i))%R)
         (resize 0%R d (Z.to_nat kMaxPosition)) ;;
  put_discount d.

(** [double CalMaxDCGAtK(data_size_t k, const label_t* label,
    const double* theta1, const double* theta2, data_size_t num_data)].
    The arrays are the lists [label], [theta1], [theta2]; [gains] has [k]
    entries and is filled from the first [k] items, and [k] is clamped to
    [num_data] after the sort. *)
Definition CalMaxDCGAtK (k : data_size_t) (label : list label_t)
    (theta1 theta2 : list double) (num_data : data_size_t) : M double :=
  gains <- vector_new 0%R k ;;
  gains <- for_loop 0 k
             (fun j gains =>
                l <- read label j ;;
                t1 <- read theta1 j ;;
                t2 <- read theta2 j ;;
                write gains j (CalGain (static_cast_int l) t1 t2))
             gains ;;
  let gains := rev (sort_asc gains) in
  let k := if k >? num_data then num_data else k in
  for_loop 0 k
    (fun j ret_ =>
       disc <- get_discount ;;
       d <- read disc j ;;
       g <- read gains j ;;
       ret (ret_ + d * g)%R)
    0%R.

(** [void CalMaxDCG(const std::vector<data_size_t>& ks, ...,
    data_size_t num_data, std::vector<double>* out)]: [*out] is passed in
    and returned.  The variables of the loop over [ks] are [cur_result],
    [cur_left] and [*out]. *)
Definition CalMaxDCG (ks : list data_size_t) (label : list label_t)
    (theta1 theta2 : list double) (num_data : data_size_t)
    (out : list double) : M (list double) :=
  gains <- vector_new 0%R num_data ;;
  gains <- for_loop 0 num_data
             (fun j gains =>
                l <- read label j ;;
                t1 <- read theta1 j ;;
                t2 <- read theta2 j ;;
                write gains j (CalGain (static_cast_int l) t1 t2))
             gains ;;
  let gains := rev (sort_asc gains) in
  r <- for_loop 0 (Z.of_nat (length ks))
         (fun i '(cur_result, cur_left, out) =>
            cur_k <- read ks i ;;
            let cur_k := if cur_k >? num_data then num_data else cur_k in
            cur_result <- for_loop cur_left cur_k
                            (fun j cur_result =>
                               disc <- get_discount ;;
                               d <- read disc j ;;
                               g <- read gains j ;;
                               ret (cur_result + d * g)%R)
                            cur_result ;;
            out <- write out i cur_result ;;
            ret (cur_result, cur_k, out))
         (0%R, 0, out) ;;
  ret (snd r).

(** [void CalDCG(const std::vector<data_size_t>& ks, const label_t* label,
    const double* score, ..., data_size_t num_data,
    std::vector<double>* out)].  The comparator of [std::stable_sort] is
    [score[a] > score[b]]. *)
Definition CalDCG (ks : list data_size_t) (label : list label_t)
    (score theta1 theta2 : list double) (num_data : data_size_t)
    (out : list double) : M (list double) :=
  sorted_idx <- vector_new 0 num_data ;;
  sorted_idx <- for_loop 0 num_data (fun i v => write v i i) sorted_idx ;;
  sorted_idx <- stable_sort
                  (fun a b =>
                     sa <- read score a ;;
                     sb <- read score b ;;
                     ret (Rgt_bool sa sb))
                  sorted_idx ;;
  r <- for_loop 0 (Z.of_nat (length ks))
         (fun i '(cur_result, cur_left, out) =>
            cur_k <- read ks i ;;
            let cur_k := if cur_k >? num_data then num_data else cur_k in
            cur_result <- for_loop cur_left cur_k
                            (fun j cur_result =>
                               idx <- read sorted_idx j ;;
                               l <- read label idx ;;
                               t1 <- read theta1 idx ;;
                               t2 <- read theta2 idx ;;
                               disc <- get_discount ;;
                               d <- read disc j ;;
                               ret (cur_result
                                    + CalGain (static_cast_int l) t1 t2 * d)%R)
                            cur_result ;;
            out <- write out i cur_result ;;
            ret (cur_result, cur_k, out))
         (0%R, 0, out) ;;
  ret (snd r).

(** Modelled from the spec: the class [Metadata] is declared in a header
    outside this file.  The spec describes a provider exposing the query
    boundaries, an ordered integer sequence delimiting the query groups;
    the code receives them as a pointer and tests it against null. *)
Record Metadata : Type := mkMetadata {
  query_boundaries : option (list data_size_t)
}.

(** [void CheckMetadata(const Metadata& metadata, data_size_t num_queries)].
    [num_rows] is a [data_size_t] difference. *)
Definition CheckMetadata (metadata : Metadata) (num_queries : data_size_t)
  : M unit :=
  match query_boundaries metadata with
  | Some qb =>
      if num_queries >? 0 then
        for_loop 0 num_queries
          (fun i _ =>
             hi <- read qb (i + 1) ;;
             lo <- read qb i ;;
             let num_rows := wrap_int (hi - lo) in
             if num_rows >? kMaxPosition then raise (Fatal QueryTooLong)
             else ret tt)
          tt
      else ret tt
  | None => ret tt
  end.

Section Validators.

(** [kEpsilon] is declared in a header outside this file; it is the
    "small numeric tolerance" of the integrality test and is taken as a
    parameter. *)
Variable kEpsilon : double.

(** [void CheckLabel(const label_t* label, data_size_t num_data)]. *)
Definition CheckLabel (label : list label_t) (num_data : data_size_t)
  : M unit :=
  for_loop 0 num_data
    (fun i _ =>
       li <- read label i ;;
       let delta := Rabs (li - IZR (static_cast_int li)) in
       (if Rgt_bool delta kEpsilon then raise (Fatal LabelNotInt)
        else ret tt) ;;
       (if Rlt_bool li 0 then raise (Fatal LabelNegative) else ret tt) ;;
       lg <- get_label_gain ;;
       if Z.of_nat (length lg) <=? static_cast_size_t li
       then raise (Fatal LabelTooLarge)
       else ret tt)
    tt.

End Validators.

(** ** Auxiliary definitions for the properties *)

(** The static vectors before [Init]: default-constructed, empty. *)
Definition uninitialised : statics := mkStatics [] [].

(** The table [Init] leaves in [discount_]. *)
Definition discount_table : list double :=
  map (fun k => (1 / log2 (2 + IZR (Z.of_nat k)))%R)
      (seq 0 (Z.to_nat kMaxPosition)).

(** The static members once [Init] has run. *)
Definition initialised (label_gain : list double) : statics :=
  mkStatics label_gain discount_table.

(** What CheckLabel rejects: a label whose distance to its integer
    truncation exceeds the tolerance, a negative label, or a label not
    below the size of the label-gain table. *)
Definition invalid_label (tolerance : R) (table_size : nat) (l : label_t)
  : Prop :=
  (Rabs (l - IZR (static_cast_int l)) > tolerance)%R
  \/ (l < 0)%R
  \/ (INR table_size <= l)%R.

(** The gain of the item at index [j]. *)
Definition item_gain (label : list label_t) (theta1 theta2 : list double)
    (j : nat) : double :=
  CalGain (static_cast_int (nth j label 0%R)) (nth j theta1 0%R)
          (nth j theta2 0%R).

(** The gains of the first [n] items, in item order. *)
Definition gains_of (label : list label_t) (theta1 theta2 : list double)
    (n : nat) : list double :=
  map (item_gain label theta1 theta2) (seq 0 n).

Fixpoint sum_upto (term : nat -> R) (k : nat) : R :=
  match k with
  | O => 0%R
  | S k' => (sum_upto term k' + term k')%R
  end.

(** The sum of [disc[j] * gains[j]] for [j] in [[0, k)]. *)
Definition partial_dcg (disc gains : list double) (k : nat) : double :=
  sum_upto (fun j => (nth j disc 0 * nth j gains 0)%R) k.

Definition sort_desc (l : list R) : list R := rev (sort_asc l).

(** MaxDCGAtK in the words of the specification: the gains of all [n]
    items, sorted descending, the cutoff clamped to [n], the sum of
    [discount[j] * sortedGains[j]] over [j] in [[0, k)]. *)
Definition MaxDCGAtK_spec (disc : list double) (k : Z)
    (label : list label_t) (theta1 theta2 : list double) (n : Z) : double :=
  let sortedGains := sort_desc (gains_of label theta1 theta2 (Z.to_nat n)) in
  let k := if k >? n then n else k in
  partial_dcg disc sortedGains (Z.to_nat k).

(** What the loop over [ks] writes to [out], given the position-wise terms:
    for each cutoff, clamp it, add the terms from [cur_left] up to it (none
    when it is not beyond [cur_left]), record the running total. *)
Fixpoint one_pass (term : nat -> R) (num_data : Z) (ks : list Z)
    (cur_result : R) (cur_left : Z) : list R :=
  match ks with
  | [] => []
  | k :: ks' =>
      let cur_k := if k >? num_data then num_data else k in
      let cur_result' :=
        if cur_left <? cur_k
        then (cur_result + (sum_upto term (Z.to_nat cur_k)
                            - sum_upto term (Z.to_nat cur_left)))%R
        else cur_result in
      cur_result' :: one_pass term num_data ks' cur_result' cur_k
  end.

(** The stable sort, for a comparator that reads nothing. *)
Fixpoint stable_insert_pure {A} (cmp : A -> A -> bool) (x : A) (l : list A)
  : list A :=
  match l with
  | [] => [x]
  | y :: l' => if cmp y x then y :: stable_insert_pure cmp x l' else x :: l
  end.

Fixpoint stable_sort_pure {A} (cmp : A -> A -> bool) (l : list A) : list A :=
  match l with
  | [] => []
  | x :: l' => stable_insert_pure cmp x (stable_sort_pure cmp l')
  end.

(** The item indices [0 .. n-1] in the order of descending score, equal
    scores in index order. *)
Definition score_order (score : list double) (n : nat) : list Z :=
  stable_sort_pure
    (fun a b => Rgt_bool (nth (Z.to_nat a) score 0%R)
                         (nth (Z.to_nat b) score 0%R))
    (map Z.of_nat (seq 0 n)).

(** The value or error of a run, without the static members it ends in. *)
Definition result_of {A} (o : outcome A) : error + A :=
  match o with
  | Ok a _ => inr a
  | Err e => inl e
  end.

(** Two runs agree: the same error, or the same value with the static
    members untouched on both sides. *)
Definition agree {A} (st1 st2 : statics) (o1 o2 : outcome A) : Prop :=
  match o1, o2 with
  | Ok a s1, Ok b s2 => a = b /\ s1 = st1 /\ s2 = st2
  | Err e1, Err e2 => e1 = e2
  | _, _ => False
  end.

(** [m] reads of the static members at most the observation [obs], and
    writes none. *)
Definition reads_only {X A} (obs : statics -> X) (m : M A) : Prop :=
  forall st1 st2, obs st1 = obs st2 -> agree st1 st2 (m st1) (m st2).

Fixpoint sum_list (l : list R) : R :=
  match l with
  | [] => 0%R
  | x :: l' => (x + sum_list l')%R
  end.

(** Insertion into a descending list, and the descending insertion sort;
    used only to reason about [sort_desc]. *)
Fixpoint insert_desc (x : R) (l : list R) : list R :=
  match l with
  | [] => [x]
  | y :: l' => if Rle_dec y x then x :: l else y :: insert_desc x l'
  end.

Fixpoint isort_desc (l : list R) : list R :=
  match l with
  | [] => []
  | x :: l' => insert_desc x (isort_desc l')
  end.

(** The array [a] read in the order of the indices [sigma]. *)
Definition reorder (sigma : list nat) (a : list R) : list R :=
  map (fun i => nth i a 0%R) sigma.

(** * Properties *)

(** ** The monad, arrays and loops *)

Lemma bind_Ok {A B} (m : M A) (f : A -> M B) st a st' :
  m st = Ok a st' -> bind m f st = f a st'.
Proof. unfold bind; intros ->; reflexivity. Qed.

Lemma bind_Err {A B} (m : M A) (f : A -> M B) st e :
  m st = Err e -> bind m f st = Err e.
Proof. unfold bind; intros ->; reflexivity. Qed.

Lemma bind_assoc {A B C} (m : M A) (f : A -> M B) (g : B -> M C) st :
  bind m (fun x => bind (f x) g) st = bind (bind m f) g st.
Proof. unfold bind. destruct (m st); reflexivity. Qed.

Lemma read_Ok {A} (v : list A) j x st :
  0 <= j -> nth_error v (Z.to_nat j) = Some x -> read v j st = Ok x st.
Proof.
  intros Hj Hx; unfold read.
  destruct (Z.ltb_spec j 0); [lia|]. rewrite Hx; reflexivity.
Qed.

Lemma read_nth {A} (v : list A) j d st :
  0 <= j < Z.of_nat (length v) -> read v j st = Ok (nth (Z.to_nat j) v d) st.
Proof.
  intros Hj; apply read_Ok; [lia|].
  apply nth_error_nth'; lia.
Qed.

Lemma read_OutOfRange {A} (v : list A) j st :
  j < 0 \/ Z.of_nat (length v) <= j -> read v j st = Err OutOfRange.
Proof.
  intros Hj; unfold read.
  destruct (Z.ltb_spec j 0); [reflexivity|].
  destruct (nth_error v (Z.to_nat j)) eqn:E; [|reflexivity].
  assert (Z.to_nat j < length v)%nat by (apply nth_error_Some; congruence).
  lia.
Qed.

Lemma write_Ok {A} (v : list A) j x st :
  0 <= j < Z.of_nat (length v) ->
  write v j x st = Ok (set_nth v (Z.to_nat j) x) st.
Proof.
  intros Hj; unfold write.
  destruct (Z.ltb_spec j 0); [lia|].
  destruct (Z.leb_spec (Z.of_nat (length v)) j); [lia|]. reflexivity.
Qed.

Lemma set_nth_length {A} (v : list A) n x : length (set_nth v n x) = length v.
Proof.
  revert n; induction v as [|y v IH]; intros [|n]; simpl; auto.
Qed.

Lemma set_nth_app {A} (pre : list A) y post x :
  set_nth (pre ++ y :: post) (length pre) x = pre ++ x :: post.
Proof. induction pre as [|p pre IH]; simpl; [reflexivity|now rewrite IH]. Qed.

Lemma for_loop_empty {T} lo hi (body : Z -> T -> M T) s :
  hi <= lo -> for_loop lo hi body s = ret s.
Proof.
  intros H; unfold for_loop.
  replace (Z.to_nat (hi - lo)) with O by lia. reflexivity.
Qed.

Lemma for_loop_step {T} lo hi (body : Z -> T -> M T) s :
  lo < hi ->
  for_loop lo hi body s = bind (body lo s) (for_loop (lo + 1) hi body).
Proof.
  intros H; unfold for_loop.
  replace (Z.to_nat (hi - lo)) with (S (Z.to_nat (hi - (lo + 1)))) by lia.
  reflexivity.
Qed.

(** The invariant rule for a loop whose iterations all succeed and leave
    the static members alone. *)
Lemma iterate_invariant {T} (I : Z -> T -> Prop) (body : Z -> T -> M T) st :
  forall n j s,
    I j s ->
    (forall i s, j <= i < j + Z.of_nat n -> I i s ->
                 exists s', body i s st = Ok s' st /\ I (i + 1) s') ->
    exists s', iterate body j n s st = Ok s' st /\ I (j + Z.of_nat n) s'.
Proof.
  induction n as [|n IH]; intros j s Hs Hbody.
  - exists s; split; [reflexivity|]. now replace (j + Z.of_nat 0) with j by lia.
  - destruct (Hbody j s) as (s1 & E1 & I1); [lia|assumption|].
    destruct (IH (j + 1) s1 I1) as (s2 & E2 & I2).
    + intros i s' Hi; apply Hbody; lia.
    + exists s2; split.
      * simpl. erewrite bind_Ok by exact E1. exact E2.
      * now replace (j + Z.of_nat (S n)) with (j + 1 + Z.of_nat n) by lia.
Qed.

Lemma for_loop_invariant {T} (I : Z -> T -> Prop) lo hi
    (body : Z -> T -> M T) s st :
  lo <= hi ->
  I lo s ->
  (forall i s, lo <= i < hi -> I i s ->
               exists s', body i s st = Ok s' st /\ I (i + 1) s') ->
  exists s', for_loop lo hi body s st = Ok s' st /\ I hi s'.
Proof.
  intros Hle Hs Hbody; unfold for_loop.
  destruct (iterate_invariant I body st (Z.to_nat (hi - lo)) lo s Hs)
    as (s' & E & HI).
  - intros i s0 Hi; apply Hbody; lia.
  - exists s'; split; [exact E|].
    now replace (lo + Z.of_nat (Z.to_nat (hi - lo))) with hi in HI by lia.
Qed.

(** A loop of checks: either every iteration passes, or the loop stops
    with the error of some iteration. *)
Lemma iterate_checks (body : Z -> unit -> M unit) st :
  forall n j,
    (forall i, j <= i < j + Z.of_nat n ->
               body i tt st = Ok tt st \/ exists e, body i tt st = Err e) ->
    (iterate body j n tt st = Ok tt st /\
     forall i, j <= i < j + Z.of_nat n -> body i tt st = Ok tt st)
    \/ (exists i e, j <= i < j + Z.of_nat n /\ body i tt st = Err e /\
                    iterate body j n tt st = Err e).
Proof.
  induction n as [|n IH]; intros j Hbody.
  - left; split; [reflexivity|]. intros i Hi; lia.
  - destruct (Hbody j) as [E | (e & E)]; [lia| |].
    + destruct (IH (j + 1)) as [(E2 & Hall) | (i & e & Hi & Ei & E2)].
      * intros i Hi; apply Hbody; lia.
      * left; split.
        -- simpl. erewrite bind_Ok by exact E. exact E2.
        -- intros i Hi. destruct (Z.eq_dec i j) as [->|]; [exact E|].
           apply Hall; lia.
      * right; exists i, e; repeat split; try lia; [exact Ei|].
        simpl. erewrite bind_Ok by exact E. exact E2.
    + right; exists j, e; repeat split; try lia; [exact E|].
      simpl. now apply bind_Err.
Qed.

Lemma for_loop_checks lo hi (body : Z -> unit -> M unit) st :
  (forall i, lo <= i < hi ->
             body i tt st = Ok tt st \/ exists e, body i tt st = Err e) ->
  (for_loop lo hi body tt st = Ok tt st /\
   forall i, lo <= i < hi -> body i tt st = Ok tt st)
  \/ (exists i e, lo <= i < hi /\ body i tt st = Err e /\
                  for_loop lo hi body tt st = Err e).
Proof.
  intros Hbody; unfold for_loop.
  destruct (iterate_checks body st (Z.to_nat (hi - lo)) lo)
    as [(E & Hall) | (i & e & Hi & Ei & E)].
  - intros i Hi; apply Hbody; lia.
  - left; split; [exact E|]. intros i Hi; apply Hall; lia.
  - right; exists i, e; repeat split; try lia; assumption.
Qed.

(** ** GainModel *)

Lemma wrap_int_small z : int_min <= z <= int_max -> wrap_int z = z.
Proof.
  unfold int_min, int_max, wrap_int; intros H.
  rewrite Z.mod_small; lia.
Qed.

Lemma wrap_int_range z : int_min <= wrap_int z <= int_max.
Proof.
  unfold int_min, int_max, wrap_int.
  pose proof (Z.mod_pos_bound (z + 2 ^ 31) (2 ^ 32) ltac:(lia)). lia.
Qed.

(** The exponential branch is exact as long as [(1 << l) - 1] fits an
    [int]. *)
Lemma shift_gain_exact l :
  0 <= l <= 30 -> wrap_int (wrap_int (Z.shiftl 1 l) - 1) = 2 ^ l - 1.
Proof.
  intros Hl. rewrite Z.shiftl_1_l.
  assert (1 <= 2 ^ l <= 2 ^ 30).
  { split; [apply (Z.pow_le_mono_r 2 0 l); lia|apply Z.pow_le_mono_r; lia]. }
  rewrite (wrap_int_small (2 ^ l)) by (unfold int_min, int_max; lia).
  apply wrap_int_small; unfold int_min, int_max; lia.
Qed.

(** Whatever the label, the exponential branch yields an [int]. *)
Lemma CalGain_exponential_bounded l th1 th2 :
  l <> 0 -> l <> 1 -> l <> 2 ->
  (IZR int_min <= CalGain l th1 th2 <= IZR int_max)%R.
Proof.
  intros H0 H1 H2; unfold CalGain.
  destruct (Z.eqb_spec l 0); [contradiction|].
  destruct (Z.eqb_spec l 1); [contradiction|].
  destruct (Z.eqb_spec l 2); [contradiction|].
  pose proof (wrap_int_range (wrap_int (Z.shiftl 1 l) - 1)) as [Hlo Hhi].
  split; apply IZR_le; assumption.
Qed.

(** C5 (as amended): Gain(0, t1, t2) = 0, Gain(1, t1, t2) = 1/t1,
    Gain(2, t1, t2) = 2/(t1*t2) + 1/t1 for all t1 and t2, and
    Gain(l, t1, t2) = 2^l - 1, independent of t1 and t2, for every label
    l with 3 <= l <= 30, the labels for which [(1 << l) - 1] is computed
    in [int] without overflow. *)
Theorem CalGain_formula (th1 th2 : double) (l : Z) (Hl : 3 <= l <= 30) :
  CalGain 0 th1 th2 = 0%R /\
  CalGain 1 th1 th2 = (1 / th1)%R /\
  CalGain 2 th1 th2 = (2 / (th1 * th2) + 1 / th1)%R /\
  CalGain l th1 th2 = (IZR (2 ^ l) - 1)%R.
Proof.
  repeat split; try reflexivity.
  unfold CalGain.
  destruct (Z.eqb_spec l 0); [lia|].
  destruct (Z.eqb_spec l 1); [lia|].
  destruct (Z.eqb_spec l 2); [lia|].
  rewrite shift_gain_exact by lia.
  now rewrite minus_IZR.
Qed.

Lemma CalGain_formula_witness :
  3 <= 5 <= 30 /\ CalGain 5 1 1 = (IZR (2 ^ 5) - 1)%R.
Proof.
  split; [lia|].
  exact (proj2 (proj2 (proj2 (CalGain_formula 1 1 5 ltac:(lia))))).
Defined.

(** C5 (as stated) fails: the gain of a label of 3 or more is an [int]
    converted to [double], so it cannot be 2^32 - 1 at label 32. *)
Lemma CalGain_label_32 :
  3 <= 32 /\
  CalGain 32 1 1 = (-1)%R /\
  (CalGain 32 1 1 <= IZR int_max < IZR (2 ^ 32) - 1)%R /\
  CalGain 32 1 1 <> (IZR (2 ^ 32) - 1)%R.
Proof.
  assert (E : CalGain 32 1 1 = (-1)%R).
  { unfold CalGain; simpl Z.eqb; cbv iota.
    replace (wrap_int (wrap_int (Z.shiftl 1 32) - 1)) with (-1)
      by (vm_compute; reflexivity).
    reflexivity. }
  split; [lia|]. split; [exact E|].
  rewrite E. replace (2 ^ 32) with 4294967296 by reflexivity.
  replace int_max with 2147483647 by reflexivity.
  repeat split; lra.
Qed.

(** From label 31 on, [1 << l] does not fit an [int]. *)
Lemma shift_overflows l : 31 <= l -> int_max < Z.shiftl 1 l.
Proof.
  intros Hl. rewrite Z.shiftl_1_l. unfold int_max.
  pose proof (Z.pow_le_mono_r 2 31 l ltac:(lia) Hl). lia.
Qed.

(** At label 31 the shift wraps to [INT_MIN] and the subtraction wraps
    again, to [INT_MAX]. *)
Lemma CalGain_label_31 th1 th2 : CalGain 31 th1 th2 = IZR int_max.
Proof. reflexivity. Qed.

(** ** Validators: CheckMetadata *)

(** C10: CheckMetadata succeeds vacuously, without any per-query length
    check, whenever numQueries == 0 or the query-boundaries pointer is
    null: it is then the computation that returns at once. *)
Theorem CheckMetadata_vacuous (metadata : Metadata) (num_queries : data_size_t)
    (H : num_queries = 0 \/ query_boundaries metadata = None) :
  CheckMetadata metadata num_queries = ret tt.
Proof.
  unfold CheckMetadata.
  destruct H as [-> | ->]; [|reflexivity].
  destruct (query_boundaries metadata); reflexivity.
Qed.

Lemma CheckMetadata_vacuous_witness :
  (0 = 0 \/ query_boundaries (mkMetadata (Some [0; 20000])) = None) /\
  CheckMetadata (mkMetadata (Some [0; 20000])) 0 = ret tt.
Proof.
  split; [left; reflexivity|].
  apply CheckMetadata_vacuous; left; reflexivity.
Defined.

(** One iteration of the loop of CheckMetadata on valid boundaries. *)
Lemma CheckMetadata_body (qb : list data_size_t) i st :
  0 <= i -> i + 1 < Z.of_nat (length qb) ->
  Forall (fun b => 0 <= b <= int_max) qb ->
  let rows := nth (Z.to_nat (i + 1)) qb 0 - nth (Z.to_nat i) qb 0 in
  (hi <- read qb (i + 1) ;;
   lo <- read qb i ;;
   let num_rows := wrap_int (hi - lo) in
   if num_rows >? kMaxPosition then raise (Fatal QueryTooLong) else ret tt) st
  = if rows >? kMaxPosition then Err (Fatal QueryTooLong) else Ok tt st.
Proof.
  intros Hi Hlen Hrange rows.
  rewrite (bind_Ok _ _ _ _ _ (read_nth qb (i + 1) 0 st ltac:(lia))).
  rewrite (bind_Ok _ _ _ _ _ (read_nth qb i 0 st ltac:(lia))).
  cbv zeta.
  rewrite Forall_forall in Hrange.
  assert (H1 : 0 <= nth (Z.to_nat (i + 1)) qb 0 <= int_max)
    by (apply Hrange, nth_In; lia).
  assert (H0 : 0 <= nth (Z.to_nat i) qb 0 <= int_max)
    by (apply Hrange, nth_In; lia).
  rewrite wrap_int_small by (unfold int_min, int_max in *; lia).
  fold rows. destruct (rows >? kMaxPosition); reflexivity.
Qed.

(** C7: on a boundary sequence of numQueries + 1 offsets, CheckMetadata
    fails fatally when the item count of some query,
    query_boundaries[i+1] - query_boundaries[i] with i in [0, numQueries),
    exceeds 10000, and succeeds otherwise. *)
Theorem CheckMetadata_position_cap (qb : list data_size_t)
    (num_queries : data_size_t) (st : statics)
    (Hlen : num_queries + 1 <= Z.of_nat (length qb))
    (Hrange : Forall (fun b => 0 <= b <= int_max) qb) :
  let rows i := nth (Z.to_nat (i + 1)) qb 0 - nth (Z.to_nat i) qb 0 in
  ((exists i, 0 <= i < num_queries /\ rows i > 10000) ->
   CheckMetadata (mkMetadata (Some qb)) num_queries st
   = Err (Fatal QueryTooLong)) /\
  ((forall i, 0 <= i < num_queries -> rows i <= 10000) ->
   CheckMetadata (mkMetadata (Some qb)) num_queries st = Ok tt st).
Proof.
  intros rows.
  unfold CheckMetadata; cbn [query_boundaries].
  set (body := fun (i : Z) (_ : unit) =>
                 hi <- read qb (i + 1) ;;
                 lo <- read qb i ;;
                 let num_rows := wrap_int (hi - lo) in
                 if num_rows >? kMaxPosition then raise (Fatal QueryTooLong)
                 else ret tt).
  assert (Hbody : forall i, 0 <= i < num_queries ->
            body i tt st = if rows i >? kMaxPosition
                           then Err (Fatal QueryTooLong) else Ok tt st).
  { intros i Hi. apply CheckMetadata_body; [lia|lia|assumption]. }
  destruct (Z.gtb_spec num_queries 0) as [Hpos|Hnonpos].
  2:{ split; [intros (i & Hi & _); lia|reflexivity]. }
  destruct (for_loop_checks 0 num_queries body st)
    as [(E & Hall) | (i & e & Hi & Ei & E)].
  - intros i Hi. rewrite (Hbody i Hi).
    destruct (rows i >? kMaxPosition); [right; eauto|left; reflexivity].
  - split; [|intros _; exact E].
    intros (i & Hi & Hbig). specialize (Hall i Hi).
    rewrite (Hbody i Hi) in Hall.
    destruct (Z.gtb_spec (rows i) kMaxPosition); [discriminate|].
    unfold kMaxPosition in *; lia.
  - rewrite (Hbody i Hi) in Ei.
    destruct (Z.gtb_spec (rows i) kMaxPosition) as [Hbig|]; [|discriminate].
    injection Ei as <-. split; [intros _; exact E|].
    intros Hsmall. specialize (Hsmall i Hi). unfold kMaxPosition in *; lia.
Qed.

Lemma CheckMetadata_position_cap_witness :
  CheckMetadata (mkMetadata (Some [0; 3; 10004])) 2 uninitialised
  = Err (Fatal QueryTooLong) /\
  CheckMetadata (mkMetadata (Some [0; 3; 10003])) 2 uninitialised
  = Ok tt uninitialised.
Proof.
  split.
  - apply (proj1 (CheckMetadata_position_cap [0; 3; 10004] 2 uninitialised
                    ltac:(simpl; lia)
                    ltac:(unfold int_max; repeat constructor; lia))).
    exists 1; simpl; lia.
  - apply (proj2 (CheckMetadata_position_cap [0; 3; 10003] 2 uninitialised
                    ltac:(simpl; lia)
                    ltac:(unfold int_max; repeat constructor; lia))).
    intros i Hi.
    assert (Hc : i = 0 \/ i = 1) by lia.
    destruct Hc as [-> | ->]; simpl; lia.
Defined.

(** ** Validators: CheckLabel *)

Lemma static_cast_int_IZR z : static_cast_int (IZR z) = z.
Proof.
  unfold static_cast_int.
  destruct (Rle_dec 0 (IZR z)); [apply ZfloorZ|].
  unfold Zceil. rewrite <- opp_IZR, ZfloorZ. lia.
Qed.

Lemma static_cast_int_nonneg_ge x n :
  (0 <= x)%R -> (n <= static_cast_int x <-> (IZR n <= x)%R).
Proof.
  intros Hx; unfold static_cast_int.
  destruct (Rle_dec 0 x); [|contradiction].
  split; [|apply Zfloor_lub].
  intros Hn. apply IZR_le in Hn.
  pose proof (Zfloor_bound x). lra.
Qed.

Lemma invalid_label_dec tolerance table_size l :
  {invalid_label tolerance table_size l} +
  {~ invalid_label tolerance table_size l}.
Proof.
  unfold invalid_label.
  destruct (Rgt_dec (Rabs (l - IZR (static_cast_int l))) tolerance);
    [left; tauto|].
  destruct (Rlt_dec l 0); [left; tauto|].
  destruct (Rle_dec (INR table_size) l); [left; tauto|right; tauto].
Qed.

Section CheckLabelProperties.

Variable kEpsilon : double.

Let check_body (label : list label_t) : Z -> unit -> M unit :=
  fun i _ =>
    li <- read label i ;;
    let delta := Rabs (li - IZR (static_cast_int li)) in
    (if Rgt_bool delta kEpsilon then raise (Fatal LabelNotInt)
     else ret tt) ;;
    (if Rlt_bool li 0 then raise (Fatal LabelNegative) else ret tt) ;;
    lg <- get_label_gain ;;
    if Z.of_nat (length lg) <=? static_cast_size_t li
    then raise (Fatal LabelTooLarge)
    else ret tt.

Lemma CheckLabel_body label i st :
  0 <= i < Z.of_nat (length label) ->
  let li := nth (Z.to_nat i) label 0%R in
  (invalid_label kEpsilon (length (label_gain_ st)) li ->
   exists why, check_body label i tt st = Err (Fatal why)) /\
  (~ invalid_label kEpsilon (length (label_gain_ st)) li ->
   check_body label i tt st = Ok tt st).
Proof.
  intros Hi li. unfold check_body.
  rewrite (bind_Ok _ _ _ _ _ (read_nth label i 0%R st Hi)).
  fold li. cbv zeta. unfold invalid_label, Rgt_bool, Rlt_bool.
  destruct (Rgt_dec (Rabs (li - IZR (static_cast_int li))) kEpsilon)
    as [Hd|Hd].
  { split; [intros _; eexists; reflexivity|intros H; exfalso; apply H; now left]. }
  destruct (Rlt_dec li 0) as [Hn|Hn].
  { split; [intros _; eexists; reflexivity|].
    intros H; exfalso; apply H; right; now left. }
  cbv beta iota delta [bind ret get_label_gain static_cast_size_t].
  assert (Hge : (0 <= li)%R) by lra.
  pose proof (static_cast_int_nonneg_ge li
                (Z.of_nat (length (label_gain_ st))) Hge) as Hcast.
  rewrite <- INR_IZR_INZ in Hcast.
  destruct (Z.leb_spec (Z.of_nat (length (label_gain_ st)))
              (static_cast_int li)) as [Hb|Hb].
  - split; [intros _; eexists; reflexivity|].
    intros H; exfalso; apply H; right; right. now apply Hcast.
  - split; [|intros _; reflexivity].
    intros [H | [H | H]]; [contradiction|contradiction|].
    apply Hcast in H. lia.
Qed.


End CheckLabelProperties.


(** The three rejections named by the specification, for a table of three
    gains: 2.5 is not an integer, -1 is negative, 3 is not below the size
    of the table. *)
Lemma CheckLabel_rejections (st := mkStatics [0; 1; 3]%R []) :
  CheckLabel 1e-15 [2.5]%R 1 st = Err (Fatal LabelNotInt) /\
  CheckLabel 1e-15 [-1]%R 1 st = Err (Fatal LabelNegative) /\
  CheckLabel 1e-15 [3]%R 1 st = Err (Fatal LabelTooLarge).
Proof.
  assert (E25 : static_cast_int 2.5 = 2).
  { unfold static_cast_int. destruct (Rle_dec 0 2.5); [|lra].
    apply Zfloor_eq; lra. }
  assert (Em1 : static_cast_int (-1) = -1) by apply (static_cast_int_IZR (-1)).
  assert (E3 : static_cast_int 3 = 3) by apply (static_cast_int_IZR 3).
  unfold CheckLabel, for_loop; simpl iterate.
  repeat split.
  - cbv beta iota delta [bind ret read Z.ltb Z.compare Z.to_nat nth_error].
    rewrite E25. unfold Rgt_bool.
    destruct (Rgt_dec (Rabs (2.5 - 2)) 1e-15) as [|H]; [reflexivity|].
    exfalso; apply H. rewrite Rabs_pos_eq; lra.
  - cbv beta iota delta [bind ret read Z.ltb Z.compare Z.to_nat nth_error].
    rewrite Em1. unfold Rgt_bool, Rlt_bool.
    destruct (Rgt_dec (Rabs (-1 - -1)) 1e-15) as [H|_].
    { exfalso. rewrite Rminus_diag, Rabs_R0 in H. lra. }
    destruct (Rlt_dec (-1) 0) as [|H]; [reflexivity|lra].
  - cbv beta iota delta [bind ret read Z.ltb Z.compare Z.to_nat nth_error
                           get_label_gain static_cast_size_t].
    rewrite E3. unfold Rgt_bool, Rlt_bool.
    destruct (Rgt_dec (Rabs (3 - 3)) 1e-15) as [H|_].
    { exfalso. rewrite Rminus_diag, Rabs_R0 in H. lra. }
    destruct (Rlt_dec 3 0) as [H|_]; [lra|]. reflexivity.
Qed.

(** ** Filling a vector by index *)

Lemma set_nth_same {A} (v : list A) n x d :
  (n < length v)%nat -> nth n (set_nth v n x) d = x.
Proof.
  revert n; induction v as [|y v IH]; intros [|n] H; simpl in *;
    try lia; [reflexivity|apply IH; lia].
Qed.

Lemma set_nth_other {A} (v : list A) n m x d :
  m <> n -> nth m (set_nth v n x) d = nth m v d.
Proof.
  revert n m; induction v as [|y v IH]; intros [|n] [|m] H; simpl;
    try reflexivity; try congruence.
  apply IH; congruence.
Qed.

(** A loop that assigns [val i] to [v[i]] for every [i] below the size of
    [v] leaves the vector of the values. *)
Lemma for_loop_fill {A} (val : Z -> A) (body : Z -> list A -> M (list A))
    (v0 : list A) (n : Z) st :
  Z.of_nat (length v0) = n ->
  (forall i v, 0 <= i < n -> Z.of_nat (length v) = n ->
               body i v st = write v i (val i) st) ->
  for_loop 0 n body v0 st
  = Ok (map (fun k => val (Z.of_nat k)) (seq 0 (Z.to_nat n))) st.
Proof.
  intros Hlen Hbody.
  destruct v0 as [|a0 v0'] eqn:Ev0.
  { simpl in Hlen; subst n. reflexivity. }
  rewrite <- Ev0 in *. clear Ev0 v0'.
  destruct (for_loop_invariant
              (fun i v => Z.of_nat (length v) = n /\
                          forall k, (k < Z.to_nat i)%nat ->
                                    nth k v a0 = val (Z.of_nat k))
              0 n body v0 st) as (v & E & Hv & Hnth).
  - lia.
  - split; [exact Hlen|]. intros k Hk; simpl in Hk; lia.
  - intros i v Hi (Hv & Hnth).
    exists (set_nth v (Z.to_nat i) (val i)). split.
    + rewrite Hbody by assumption. apply write_Ok; lia.
    + split; [rewrite set_nth_length; exact Hv|].
      intros k Hk.
      destruct (Nat.eq_dec k (Z.to_nat i)) as [->|Hne].
      * rewrite set_nth_same by lia. f_equal; lia.
      * rewrite set_nth_other by assumption. apply Hnth; lia.
  - rewrite E. f_equal.
    apply (nth_ext _ _ a0 (val 0)).
    + rewrite length_map, length_seq. lia.
    + intros k Hk.
      rewrite Hnth by lia.
      rewrite (nth_indep _ _ (val (Z.of_nat 0%nat)))
        by (rewrite length_map, length_seq; lia).
      rewrite (map_nth (fun k => val (Z.of_nat k)) (seq 0 (Z.to_nat n)) 0%nat).
      rewrite seq_nth by lia. reflexivity.
Qed.

Lemma resize_length {A} (zero : A) v n : length (resize zero v n) = n.
Proof.
  unfold resize. rewrite length_app, length_firstn, repeat_length. lia.
Qed.

(** ** DiscountTable and Init *)

Lemma Init_result (input_label_gain : list double) (st : statics) :
  Init input_label_gain st
  = Ok tt (mkStatics input_label_gain discount_table).
Proof.
  unfold Init.
  unfold bind at 1, get_label_gain at 1.
  erewrite bind_Ok.
  2:{ apply (for_loop_fill (fun i => nth (Z.to_nat i) input_label_gain 0%R)).
      - now rewrite resize_length.
      - intros i v Hi Hv.
        now rewrite (bind_Ok _ _ _ _ _ (read_nth input_label_gain i 0%R st Hi)). }
  unfold bind at 1, put_label_gain at 1.
  unfold bind at 1, get_discount at 1.
  erewrite bind_Ok.
  2:{ apply (for_loop_fill (fun i => (1 / log2 (2 + IZR i))%R)).
      - rewrite resize_length. unfold kMaxPosition; lia.
      - intros i v Hi Hv. reflexivity. }
  unfold put_discount; cbn [label_gain_ discount_].
  f_equal. f_equal.
  rewrite Nat2Z.id.
  apply (nth_ext _ _ 0%R 0%R).
  - now rewrite length_map, length_seq.
  - intros k Hk. rewrite length_map, length_seq in Hk.
    rewrite (nth_indep _ _ (nth (Z.to_nat (Z.of_nat 0%nat)) input_label_gain 0%R))
      by (rewrite length_map, length_seq; lia).
    rewrite (map_nth (fun k => nth (Z.to_nat (Z.of_nat k)) input_label_gain 0%R)).
    rewrite seq_nth by lia. now rewrite Nat2Z.id.
Qed.

Lemma discount_table_length : Z.of_nat (length discount_table) = 10000.
Proof.
  unfold discount_table. rewrite length_map, length_seq.
  unfold kMaxPosition; lia.
Qed.

Lemma discount_table_nth i d :
  0 <= i < 10000 ->
  nth (Z.to_nat i) discount_table d = (1 / log2 (2 + IZR i))%R.
Proof.
  intros Hi. unfold discount_table.
  rewrite (nth_indep _ _ (1 / log2 (2 + IZR (Z.of_nat 0%nat)))%R)
    by (rewrite length_map, length_seq; unfold kMaxPosition; lia).
  rewrite (map_nth (fun k => (1 / log2 (2 + IZR (Z.of_nat k)))%R)).
  rewrite seq_nth by (unfold kMaxPosition; lia).
  simpl Nat.add. now rewrite Z2Nat.id by lia.
Qed.

Lemma ln_2_pos : (0 < ln 2)%R.
Proof. rewrite <- ln_1. apply ln_increasing; lra. Qed.

Lemma log2_2 : log2 2 = 1%R.
Proof. unfold log2. pose proof ln_2_pos. field. lra. Qed.

Lemma log2_increasing x y : (0 < x)%R -> (x < y)%R -> (log2 x < log2 y)%R.
Proof.
  intros Hx Hxy. unfold log2, Rdiv.
  apply Rmult_lt_compat_r.
  - apply Rinv_0_lt_compat, ln_2_pos.
  - now apply ln_increasing.
Qed.

Lemma log2_ge_1 x : (2 <= x)%R -> (1 <= log2 x)%R.
Proof.
  intros [Hx | <-]; [|rewrite log2_2; lra].
  rewrite <- log2_2. left. apply log2_increasing; lra.
Qed.

Lemma discount_decreasing i j :
  0 <= i < j ->
  (1 / log2 (2 + IZR j) < 1 / log2 (2 + IZR i))%R.
Proof.
  intros Hij.
  assert (Hi : (0 <= IZR i)%R) by (apply IZR_le; lia).
  assert (Hlt : (IZR i < IZR j)%R) by (apply IZR_lt; lia).
  pose proof (log2_ge_1 (2 + IZR i) ltac:(lra)).
  pose proof (log2_increasing (2 + IZR i) (2 + IZR j) ltac:(lra) ltac:(lra)).
  unfold Rdiv. rewrite !Rmult_1_l.
  apply Rinv_lt_contravar; [|assumption].
  apply Rmult_lt_0_compat; lra.
Qed.

(** C8: after Init the discount table has exactly 10000 entries,
    discount[i] = 1 / log2(2 + i) for every i in [0, 10000); in particular
    discount[0] = 1.0, and the entries are strictly decreasing in i. *)
Theorem Init_discount_table (input_label_gain : list double) (st : statics) :
  exists st',
    Init input_label_gain st = Ok tt st' /\
    Z.of_nat (length (discount_ st')) = 10000 /\
    (forall i, 0 <= i < 10000 ->
       nth_error (discount_ st') (Z.to_nat i)
       = Some (1 / log2 (2 + IZR i))%R) /\
    nth_error (discount_ st') 0 = Some 1%R /\
    (forall i j x y, 0 <= i < j -> j < 10000 ->
       nth_error (discount_ st') (Z.to_nat i) = Some x ->
       nth_error (discount_ st') (Z.to_nat j) = Some y ->
       (y < x)%R).
Proof.
  exists (mkStatics input_label_gain discount_table).
  split; [apply Init_result|]. cbn [discount_].
  assert (Hnth : forall i, 0 <= i < 10000 ->
            nth_error discount_table (Z.to_nat i)
            = Some (1 / log2 (2 + IZR i))%R).
  { intros i Hi.
    rewrite <- (discount_table_nth i 0%R Hi).
    apply nth_error_nth'. pose proof discount_table_length. lia. }
  split; [apply discount_table_length|].
  split; [exact Hnth|].
  split.
  - change 0%nat with (Z.to_nat 0). rewrite Hnth by lia.
    f_equal. rewrite Rplus_0_r, log2_2. lra.
  - intros i j x y Hij Hj Hx Hy.
    rewrite Hnth in Hx by lia. rewrite Hnth in Hy by lia.
    injection Hx as <-. injection Hy as <-.
    now apply discount_decreasing.
Qed.

(** ** Splitting a loop *)

Lemma iterate_app {T} (body : Z -> T -> M T) n m :
  forall j s st,
    iterate body j (n + m) s st
    = bind (iterate body j n s) (iterate body (j + Z.of_nat n) m) st.
Proof.
  induction n as [|n IH]; intros j s st.
  - simpl. unfold bind, ret. now replace (j + 0) with j by lia.
  - cbn [Nat.add iterate]. unfold bind.
    destruct (body j s st) as [s1 st1|e]; [|reflexivity].
    rewrite IH. unfold bind.
    now replace (j + 1 + Z.of_nat n) with (j + Z.of_nat (S n)) by lia.
Qed.

Lemma for_loop_split {T} lo mid hi (body : Z -> T -> M T) s st :
  lo <= mid <= hi ->
  for_loop lo hi body s st
  = bind (for_loop lo mid body s) (for_loop mid hi body) st.
Proof.
  intros H; unfold for_loop.
  replace (Z.to_nat (hi - lo))
    with (Z.to_nat (mid - lo) + Z.to_nat (hi - mid))%nat by lia.
  rewrite iterate_app.
  now replace (lo + Z.of_nat (Z.to_nat (mid - lo))) with mid by lia.
Qed.

(** ** Gains and sums *)

Lemma gains_loop (label : list label_t) (theta1 theta2 : list double)
    (m : Z) st :
  0 <= m ->
  m <= Z.of_nat (length label) ->
  m <= Z.of_nat (length theta1) ->
  m <= Z.of_nat (length theta2) ->
  (gains <- vector_new 0%R m ;;
   for_loop 0 m
     (fun j gains =>
        l <- read label j ;;
        t1 <- read theta1 j ;;
        t2 <- read theta2 j ;;
        write gains j (CalGain (static_cast_int l) t1 t2))
     gains) st
  = Ok (gains_of label theta1 theta2 (Z.to_nat m)) st.
Proof.
  intros Hm Hl H1 H2.
  unfold vector_new. destruct (Z.ltb_spec m 0); [lia|].
  unfold bind at 1, ret at 1.
  rewrite (for_loop_fill
             (fun i => item_gain label theta1 theta2 (Z.to_nat i))).
  - unfold gains_of. f_equal. apply map_ext.
    intros k. now rewrite Nat2Z.id.
  - rewrite repeat_length; lia.
  - intros i v Hi Hv.
    rewrite (bind_Ok _ _ _ _ _ (read_nth label i 0%R st ltac:(lia))).
    rewrite (bind_Ok _ _ _ _ _ (read_nth theta1 i 0%R st ltac:(lia))).
    rewrite (bind_Ok _ _ _ _ _ (read_nth theta2 i 0%R st ltac:(lia))).
    reflexivity.
Qed.

(** A loop that adds [term j] to its accumulator for [j] in [[lo, hi)]. *)
Lemma accumulate_loop (term : nat -> R) (body : Z -> R -> M R) lo hi acc st :
  0 <= lo <= hi ->
  (forall j a, lo <= j < hi ->
               body j a st = Ok (a + term (Z.to_nat j))%R st) ->
  for_loop lo hi body acc st
  = Ok (acc + (sum_upto term (Z.to_nat hi) - sum_upto term (Z.to_nat lo)))%R st.
Proof.
  intros Hlo Hbody.
  destruct (for_loop_invariant
              (fun j a => a = (acc + (sum_upto term (Z.to_nat j)
                                      - sum_upto term (Z.to_nat lo)))%R)
              lo hi body acc st) as (a & E & Ha).
  - lia.
  - lra.
  - intros j a Hj ->. eexists; split; [apply Hbody; lia|].
    replace (Z.to_nat (j + 1)) with (S (Z.to_nat j)) by lia.
    simpl. lra.
  - now rewrite E, Ha.
Qed.

Lemma dcg_loop (gains : list double) lo hi acc st :
  0 <= lo <= hi ->
  hi <= Z.of_nat (length (discount_ st)) ->
  hi <= Z.of_nat (length gains) ->
  for_loop lo hi
    (fun j ret_ =>
       disc <- get_discount ;;
       d <- read disc j ;;
       g <- read gains j ;;
       ret (ret_ + d * g)%R)
    acc st
  = Ok (acc + (partial_dcg (discount_ st) gains (Z.to_nat hi)
               - partial_dcg (discount_ st) gains (Z.to_nat lo)))%R st.
Proof.
  intros Hlo Hd Hg. unfold partial_dcg.
  apply (accumulate_loop
           (fun j => (nth j (discount_ st) 0 * nth j gains 0)%R)); [lia|].
  intros j a Hj.
  unfold bind at 1, get_discount at 1.
  rewrite (bind_Ok _ _ _ _ _ (read_nth (discount_ st) j 0%R st ltac:(lia))).
  rewrite (bind_Ok _ _ _ _ _ (read_nth gains j 0%R st ltac:(lia))).
  reflexivity.
Qed.

(** ** Sorting *)

Lemma insert_asc_perm x l : Permutation (x :: l) (insert_asc x l).
Proof.
  induction l as [|y l IH]; simpl; [reflexivity|].
  destruct (Rle_dec x y); [reflexivity|].
  rewrite perm_swap. now constructor.
Qed.

Lemma sort_asc_perm l : Permutation l (sort_asc l).
Proof.
  induction l as [|x l IH]; simpl; [constructor|].
  rewrite <- insert_asc_perm. now constructor.
Qed.

Lemma insert_asc_sorted x l :
  StronglySorted Rle l -> StronglySorted Rle (insert_asc x l).
Proof.
  induction 1 as [|y l Hs IH Hy]; simpl.
  - repeat constructor.
  - destruct (Rle_dec x y) as [Hxy|Hxy].
    + constructor; [now constructor|].
      constructor; [exact Hxy|].
      rewrite Forall_forall in *. intros z Hz. specialize (Hy z Hz). lra.
    + constructor; [exact IH|].
      rewrite Forall_forall in *. intros z Hz.
      apply (Permutation_in _ (Permutation_sym (insert_asc_perm x l))) in Hz.
      destruct Hz as [<-|Hz]; [lra|now apply Hy].
Qed.

Lemma sort_asc_sorted l : StronglySorted Rle (sort_asc l).
Proof.
  induction l as [|x l IH]; simpl; [constructor|now apply insert_asc_sorted].
Qed.

Lemma sorted_perm_unique l1 :
  forall l2, StronglySorted Rle l1 -> StronglySorted Rle l2 ->
             Permutation l1 l2 -> l1 = l2.
Proof.
  induction l1 as [|x l1 IH]; intros l2 H1 H2 HP.
  - now apply Permutation_nil in HP.
  - destruct l2 as [|y l2];
      [apply Permutation_sym, Permutation_nil in HP; discriminate|].
    inversion H1 as [|? ? S1 F1]; subst.
    inversion H2 as [|? ? S2 F2]; subst.
    assert (Hxy : x = y).
    { rewrite Forall_forall in F1, F2.
      assert (Hx : In x (y :: l2))
        by (apply (Permutation_in _ HP); now left).
      assert (Hy : In y (x :: l1))
        by (apply (Permutation_in _ (Permutation_sym HP)); now left).
      destruct Hx as [->|Hx]; [reflexivity|].
      destruct Hy as [->|Hy]; [reflexivity|].
      specialize (F1 y Hy). specialize (F2 x Hx). lra. }
    subst y. f_equal. apply IH; try assumption.
    now apply Permutation_cons_inv in HP.
Qed.

(** [sort_asc] is the only ascending arrangement of its input, so it is
    what any correct [std::sort] leaves. *)
Lemma sort_asc_unique l l' :
  Permutation l l' -> StronglySorted Rle l' -> l' = sort_asc l.
Proof.
  intros HP Hs. apply sorted_perm_unique; [assumption|apply sort_asc_sorted|].
  rewrite <- HP. apply sort_asc_perm.
Qed.

Lemma sort_desc_length l : length (sort_desc l) = length l.
Proof.
  unfold sort_desc. rewrite length_rev.
  apply Permutation_length, Permutation_sym, sort_asc_perm.
Qed.

Lemma sort_desc_perm l : Permutation l (sort_desc l).
Proof.
  unfold sort_desc. rewrite <- Permutation_rev. apply sort_asc_perm.
Qed.

Lemma gains_of_length label theta1 theta2 n :
  length (gains_of label theta1 theta2 n) = n.
Proof. unfold gains_of. now rewrite length_map, length_seq. Qed.

(** ** IdealDCGEngine: what CalMaxDCGAtK computes *)

(** With at least [k] items in the arrays, CalMaxDCGAtK sorts the gains of
    the first [k] items, whatever [num_data] is. *)
Lemma CalMaxDCGAtK_value k label theta1 theta2 num_data st :
  0 <= k -> 0 <= num_data ->
  k <= Z.of_nat (length label) ->
  k <= Z.of_nat (length theta1) ->
  k <= Z.of_nat (length theta2) ->
  Z.min k num_data <= Z.of_nat (length (discount_ st)) ->
  CalMaxDCGAtK k label theta1 theta2 num_data st
  = Ok (partial_dcg (discount_ st)
          (sort_desc (gains_of label theta1 theta2 (Z.to_nat k)))
          (Z.to_nat (Z.min k num_data))) st.
Proof.
  intros Hk Hn Hl H1 H2 Hd. unfold CalMaxDCGAtK.
  rewrite bind_assoc.
  rewrite (bind_Ok _ _ _ _ _ (gains_loop label theta1 theta2 k st Hk Hl H1 H2)).
  cbv zeta. fold (sort_desc (gains_of label theta1 theta2 (Z.to_nat k))).
  destruct (Z.gtb_spec k num_data);
    [replace (Z.min k num_data) with num_data in * by lia
    |replace (Z.min k num_data) with k in * by lia].
  all: rewrite dcg_loop.
  all: try (rewrite sort_desc_length, gains_of_length); try lia.
  all: apply (f_equal (fun x : R => Ok x st)); change (Z.to_nat 0) with O;
    unfold partial_dcg; cbn [sum_upto]; lra.
Qed.

(** With fewer than [k] items in the arrays, the gains loop of
    CalMaxDCGAtK reads [label[n]], past the end. *)
Lemma CalMaxDCGAtK_reads_beyond k label theta1 theta2 num_data st :
  Z.of_nat (length label) < k ->
  Z.of_nat (length label) <= Z.of_nat (length theta1) ->
  Z.of_nat (length label) <= Z.of_nat (length theta2) ->
  CalMaxDCGAtK k label theta1 theta2 num_data st = Err OutOfRange.
Proof.
  intros Hk H1 H2. unfold CalMaxDCGAtK.
  set (n := Z.of_nat (length label)) in *.
  set (body := fun (j : Z) (gains : list double) =>
                 l <- read label j ;;
                 t1 <- read theta1 j ;;
                 t2 <- read theta2 j ;;
                 write gains j (CalGain (static_cast_int l) t1 t2)).
  unfold vector_new. destruct (Z.ltb_spec k 0); [lia|].
  unfold bind at 1, ret at 1.
  apply bind_Err.
  rewrite (for_loop_split 0 n k) by lia.
  destruct (for_loop_invariant (fun _ v => Z.of_nat (length v) = k)
              0 n body (repeat 0%R (Z.to_nat k)) st) as (v & E & Hv).
  - lia.
  - rewrite repeat_length; lia.
  - intros i v Hi Hv. unfold body.
    rewrite (bind_Ok _ _ _ _ _ (read_nth label i 0%R st ltac:(lia))).
    rewrite (bind_Ok _ _ _ _ _ (read_nth theta1 i 0%R st ltac:(lia))).
    rewrite (bind_Ok _ _ _ _ _ (read_nth theta2 i 0%R st ltac:(lia))).
    rewrite write_Ok by lia. eexists; split; [reflexivity|].
    now rewrite set_nth_length.
  - rewrite (bind_Ok _ _ _ _ _ E).
    rewrite for_loop_step by lia.
    apply bind_Err. unfold body. apply bind_Err.
    apply read_OutOfRange. right; lia.
Qed.

(** ** The one-pass accumulation over the cutoffs *)

Lemma one_pass_length term num_data ks cr cl :
  length (one_pass term num_data ks cr cl) = length ks.
Proof.
  revert cr cl; induction ks as [|k ks IH]; intros cr cl; simpl;
    [reflexivity|now rewrite IH].
Qed.

Section OnePass.

Variable term : nat -> R.
Variable inner : Z -> R -> M R.
Variable num_data : Z.
Variable ks : list Z.
Variable st : statics.

Hypothesis num_data_nonneg : 0 <= num_data.
Hypothesis inner_adds :
  forall j a, 0 <= j < num_data ->
              inner j a st = Ok (a + term (Z.to_nat j))%R st.

Let outer_body : Z -> R * Z * list R -> M (R * Z * list R) :=
  fun i '(cur_result, cur_left, out) =>
    cur_k <- read ks i ;;
    let cur_k := if cur_k >? num_data then num_data else cur_k in
    cur_result <- for_loop cur_left cur_k inner cur_result ;;
    out <- write out i cur_result ;;
    ret (cur_result, cur_k, out).

Lemma one_pass_loop_from :
  forall suffix pre cr cl done rest,
    ks = pre ++ suffix ->
    Forall (fun k => 0 <= k) suffix ->
    0 <= cl <= num_data ->
    length done = length pre ->
    (length suffix <= length rest)%nat ->
    exists cr' cl',
      for_loop (Z.of_nat (length pre)) (Z.of_nat (length ks)) outer_body
               (cr, cl, done ++ rest) st
      = Ok (cr', cl',
            done ++ one_pass term num_data suffix cr cl
            ++ skipn (length suffix) rest) st.
Proof.
  induction suffix as [|k suffix IH];
    intros pre cr cl done rest Hks Hpos Hcl Hdone Hrest.
  - rewrite app_nil_r in Hks; subst pre.
    rewrite for_loop_empty by lia. exists cr, cl. reflexivity.
  - assert (Hlen : length ks = (length pre + S (length suffix))%nat)
      by (rewrite Hks, length_app; reflexivity).
    destruct rest as [|r rest]; [simpl in Hrest; lia|].
    rewrite for_loop_step by lia.
    inversion Hpos as [|? ? Hk Hpos']; subst.
    set (cur_k := if k >? num_data then num_data else k).
    assert (Hck : 0 <= cur_k <= num_data)
      by (unfold cur_k; destruct (Z.gtb_spec k num_data); lia).
    set (cr1 := if cl <? cur_k
                then (cr + (sum_upto term (Z.to_nat cur_k)
                            - sum_upto term (Z.to_nat cl)))%R
                else cr).
    assert (Hinner : for_loop cl cur_k inner cr st = Ok cr1 st).
    { unfold cr1. destruct (Z.ltb_spec cl cur_k).
      - apply accumulate_loop; [lia|].
        intros j a Hj. apply inner_adds; lia.
      - now rewrite for_loop_empty by lia. }
    assert (Hbody : outer_body (Z.of_nat (length pre)) (cr, cl, done ++ r :: rest) st
                    = Ok (cr1, cur_k, (done ++ [cr1]) ++ rest) st).
    { unfold outer_body.
      erewrite bind_Ok.
      2:{ apply read_Ok; [lia|].
          rewrite Nat2Z.id, nth_error_app2, Nat.sub_diag by lia.
          reflexivity. }
      cbv zeta. fold cur_k.
      rewrite (bind_Ok _ _ _ _ _ Hinner).
      erewrite bind_Ok by (apply write_Ok; rewrite length_app; simpl; lia).
      rewrite Nat2Z.id, <- Hdone, set_nth_app, <- app_assoc. reflexivity. }
    rewrite (bind_Ok _ _ _ _ _ Hbody).
    destruct (IH (pre ++ [k]) cr1 cur_k (done ++ [cr1]) rest)
      as (cr' & cl' & E).
    + now rewrite <- app_assoc.
    + assumption.
    + assumption.
    + rewrite !length_app; simpl; lia.
    + simpl in Hrest; lia.
    + rewrite length_app in E. simpl length in E.
      replace (Z.of_nat (length pre) + 1)
        with (Z.of_nat (length pre + 1)) by lia.
      rewrite E. exists cr', cl'.
      cbn [one_pass skipn length]. fold cur_k. fold cr1.
      now rewrite <- app_assoc.
Qed.

Lemma one_pass_loop cr cl out :
  Forall (fun k => 0 <= k) ks ->
  0 <= cl <= num_data ->
  (length ks <= length out)%nat ->
  exists cr' cl',
    for_loop 0 (Z.of_nat (length ks)) outer_body (cr, cl, out) st
    = Ok (cr', cl',
          one_pass term num_data ks cr cl ++ skipn (length ks) out) st.
Proof.
  intros Hpos Hcl Hout.
  exact (one_pass_loop_from ks [] cr cl [] out eq_refl Hpos Hcl eq_refl Hout).
Qed.

End OnePass.

(** ** IdealDCGEngine: what CalMaxDCG computes *)

Lemma CalMaxDCG_value ks label theta1 theta2 num_data out st :
  0 <= num_data ->
  num_data <= Z.of_nat (length label) ->
  num_data <= Z.of_nat (length theta1) ->
  num_data <= Z.of_nat (length theta2) ->
  num_data <= Z.of_nat (length (discount_ st)) ->
  Forall (fun k => 0 <= k) ks ->
  (length ks <= length out)%nat ->
  CalMaxDCG ks label theta1 theta2 num_data out st
  = Ok (one_pass
          (fun j => (nth j (discount_ st) 0
                     * nth j (sort_desc (gains_of label theta1 theta2
                                           (Z.to_nat num_data))) 0)%R)
          num_data ks 0%R 0
        ++ skipn (length ks) out) st.
Proof.
  intros Hn Hl H1 H2 Hd Hks Hout. unfold CalMaxDCG.
  rewrite bind_assoc.
  rewrite (bind_Ok _ _ _ _ _
             (gains_loop label theta1 theta2 num_data st Hn Hl H1 H2)).
  cbv zeta.
  fold (sort_desc (gains_of label theta1 theta2 (Z.to_nat num_data))).
  set (gains := sort_desc (gains_of label theta1 theta2 (Z.to_nat num_data))).
  destruct (one_pass_loop
              (fun j => (nth j (discount_ st) 0 * nth j gains 0)%R)
              (fun j cur_result =>
                 disc <- get_discount ;;
                 d <- read disc j ;;
                 g <- read gains j ;;
                 ret (cur_result + d * g)%R)
              num_data ks st Hn) with (cr := 0%R) (cl := 0) (out := out)
    as (cr' & cl' & E); try assumption; try lia.
  - intros j a Hj.
    unfold bind at 1, get_discount at 1.
    rewrite (bind_Ok _ _ _ _ _ (read_nth (discount_ st) j 0%R st ltac:(lia))).
    assert (Hg : 0 <= j < Z.of_nat (length gains))
      by (unfold gains; rewrite sort_desc_length, gains_of_length; lia).
    rewrite (bind_Ok _ _ _ _ _ (read_nth gains j 0%R st Hg)).
    reflexivity.
  - rewrite (bind_Ok _ _ _ _ _ E). reflexivity.
Qed.

(** ** ObservedDCGEngine: what CalDCG computes *)

Lemma stable_insert_pure_perm {A} (cmp : A -> A -> bool) x l :
  Permutation (x :: l) (stable_insert_pure cmp x l).
Proof.
  induction l as [|y l IH]; simpl; [reflexivity|].
  destruct (cmp y x); [|reflexivity].
  rewrite perm_swap. now constructor.
Qed.

Lemma stable_sort_pure_perm {A} (cmp : A -> A -> bool) l :
  Permutation l (stable_sort_pure cmp l).
Proof.
  induction l as [|x l IH]; simpl; [constructor|].
  rewrite <- stable_insert_pure_perm. now constructor.
Qed.

Lemma stable_insert_Ok {A} (comp : A -> A -> M bool) (cmp : A -> A -> bool)
    x l st :
  (forall y, In y l -> comp y x st = Ok (cmp y x) st) ->
  stable_insert comp x l st = Ok (stable_insert_pure cmp x l) st.
Proof.
  induction l as [|y l IH]; intros Hc; [reflexivity|].
  cbn [stable_insert stable_insert_pure].
  rewrite (bind_Ok _ _ _ _ _ (Hc y (or_introl eq_refl))).
  destruct (cmp y x); [|reflexivity].
  rewrite (bind_Ok _ _ _ _ _ (IH (fun z Hz => Hc z (or_intror Hz)))).
  reflexivity.
Qed.

Lemma stable_sort_Ok {A} (comp : A -> A -> M bool) (cmp : A -> A -> bool)
    l st :
  (forall a b, In a l -> In b l -> comp a b st = Ok (cmp a b) st) ->
  stable_sort comp l st = Ok (stable_sort_pure cmp l) st.
Proof.
  induction l as [|x l IH]; intros Hc; [reflexivity|].
  cbn [stable_sort stable_sort_pure].
  rewrite (bind_Ok _ _ _ _ _
             (IH (fun a b Ha Hb => Hc a b (or_intror Ha) (or_intror Hb)))).
  apply stable_insert_Ok.
  intros y Hy. apply Hc; [right|now left].
  now apply (Permutation_in _ (Permutation_sym (stable_sort_pure_perm cmp l))).
Qed.

Lemma score_order_length score n : length (score_order score n) = n.
Proof.
  unfold score_order.
  rewrite <- (Permutation_length (stable_sort_pure_perm _ _)).
  now rewrite length_map, length_seq.
Qed.

Lemma score_order_range score n idx :
  In idx (score_order score n) -> 0 <= idx < Z.of_nat n.
Proof.
  intros Hin.
  apply (Permutation_in _ (Permutation_sym (stable_sort_pure_perm _ _))) in Hin.
  apply in_map_iff in Hin. destruct Hin as (k & <- & Hk).
  apply in_seq in Hk. lia.
Qed.

Lemma CalDCG_value ks label score theta1 theta2 num_data out st :
  0 <= num_data ->
  num_data <= Z.of_nat (length label) ->
  num_data <= Z.of_nat (length score) ->
  num_data <= Z.of_nat (length theta1) ->
  num_data <= Z.of_nat (length theta2) ->
  num_data <= Z.of_nat (length (discount_ st)) ->
  Forall (fun k => 0 <= k) ks ->
  (length ks <= length out)%nat ->
  CalDCG ks label score theta1 theta2 num_data out st
  = Ok (one_pass
          (fun j => (item_gain label theta1 theta2
                       (Z.to_nat (nth j (score_order score
                                           (Z.to_nat num_data)) 0%Z))
                     * nth j (discount_ st) 0)%R)
          num_data ks 0%R 0
        ++ skipn (length ks) out) st.
Proof.
  intros Hn Hl Hs H1 H2 Hd Hks Hout. unfold CalDCG.
  assert (Hidx : (sorted_idx <- vector_new 0 num_data ;;
                  for_loop 0 num_data (fun i v => write v i i) sorted_idx) st
                 = Ok (map Z.of_nat (seq 0 (Z.to_nat num_data))) st).
  { unfold vector_new. destruct (Z.ltb_spec num_data 0); [lia|].
    unfold bind at 1, ret at 1.
    apply (for_loop_fill (fun i => i)); [rewrite repeat_length; lia|].
    reflexivity. }
  rewrite bind_assoc. rewrite (bind_Ok _ _ _ _ _ Hidx).
  erewrite bind_Ok.
  2:{ apply (stable_sort_Ok _
               (fun a b => Rgt_bool (nth (Z.to_nat a) score 0%R)
                                    (nth (Z.to_nat b) score 0%R))).
      intros a b Ha Hb.
      apply in_map_iff in Ha. destruct Ha as (ka & <- & Hka).
      apply in_map_iff in Hb. destruct Hb as (kb & <- & Hkb).
      apply in_seq in Hka. apply in_seq in Hkb.
      rewrite (bind_Ok _ _ _ _ _
                 (read_nth score (Z.of_nat ka) 0%R st ltac:(lia))).
      rewrite (bind_Ok _ _ _ _ _
                 (read_nth score (Z.of_nat kb) 0%R st ltac:(lia))).
      reflexivity. }
  fold (score_order score (Z.to_nat num_data)).
  set (order := score_order score (Z.to_nat num_data)).
  destruct (one_pass_loop
              (fun j => (item_gain label theta1 theta2
                           (Z.to_nat (nth j order 0%Z))
                         * nth j (discount_ st) 0)%R)
              (fun j cur_result =>
                 idx <- read order j ;;
                 l <- read label idx ;;
                 t1 <- read theta1 idx ;;
                 t2 <- read theta2 idx ;;
                 disc <- get_discount ;;
                 d <- read disc j ;;
                 ret (cur_result
                      + CalGain (static_cast_int l) t1 t2 * d)%R)
              num_data ks st Hn) with (cr := 0%R) (cl := 0) (out := out)
    as (cr' & cl' & E); try assumption; try lia.
  - intros j a Hj.
    assert (Hjo : 0 <= j < Z.of_nat (length order))
      by (unfold order; rewrite score_order_length; lia).
    rewrite (bind_Ok _ _ _ _ _ (read_nth order j 0 st Hjo)).
    assert (Hr : 0 <= nth (Z.to_nat j) order 0 < Z.of_nat (Z.to_nat num_data)).
    { apply (score_order_range score). apply nth_In.
      rewrite score_order_length. lia. }
    set (idx := nth (Z.to_nat j) order 0) in *.
    rewrite (bind_Ok _ _ _ _ _ (read_nth label idx 0%R st ltac:(lia))).
    rewrite (bind_Ok _ _ _ _ _ (read_nth theta1 idx 0%R st ltac:(lia))).
    rewrite (bind_Ok _ _ _ _ _ (read_nth theta2 idx 0%R st ltac:(lia))).
    unfold bind at 1, get_discount at 1.
    rewrite (bind_Ok _ _ _ _ _ (read_nth (discount_ st) j 0%R st ltac:(lia))).
    reflexivity.
  - rewrite (bind_Ok _ _ _ _ _ E). reflexivity.
Qed.

(** ** The specification's MaxDCGAtK *)

Lemma discount_table_0 d : nth 0 discount_table d = 1%R.
Proof.
  change 0%nat with (Z.to_nat 0). rewrite discount_table_nth by lia.
  rewrite Rplus_0_r, log2_2. lra.
Qed.

Lemma item_gain_IZR label theta1 theta2 j z :
  nth j label 0%R = IZR z ->
  item_gain label theta1 theta2 j
  = CalGain z (nth j theta1 0%R) (nth j theta2 0%R).
Proof.
  unfold item_gain. intros H. f_equal.
  transitivity (static_cast_int (IZR z));
    [f_equal; exact H|apply static_cast_int_IZR].
Qed.

Lemma CalGain_3 th1 th2 : CalGain 3 th1 th2 = 7%R.
Proof. reflexivity. Qed.

(** Two items: labels 0 and 3, all thetas 1. *)
Lemma gains_of_example :
  gains_of [0; 3]%R [1; 1]%R [1; 1]%R 1 = [0%R] /\
  gains_of [0; 3]%R [1; 1]%R [1; 1]%R 2 = [0; 7]%R.
Proof.
  unfold gains_of; cbn [seq map].
  rewrite (item_gain_IZR [0; 3]%R [1; 1]%R [1; 1]%R 0%nat 0 eq_refl).
  rewrite (item_gain_IZR [0; 3]%R [1; 1]%R [1; 1]%R 1%nat 3 eq_refl).
  split; reflexivity.
Qed.

Lemma sort_desc_example :
  sort_desc [0%R] = [0%R] /\ sort_desc [0; 7]%R = [7; 0]%R.
Proof.
  unfold sort_desc; cbn [sort_asc insert_asc].
  destruct (Rle_dec 0 7); [|lra]. split; reflexivity.
Qed.

Lemma initialised_discount_length lg :
  Z.of_nat (length (discount_ (initialised lg))) = 10000.
Proof. apply discount_table_length. Qed.

(** CalMaxDCGAtK at cutoff 1 on the two items: only the first item's gain,
    0, enters the sort. *)
Lemma CalMaxDCGAtK_example lg :
  CalMaxDCGAtK 1 [0; 3]%R [1; 1]%R [1; 1]%R 2 (initialised lg)
  = Ok 0%R (initialised lg).
Proof.
  pose proof (initialised_discount_length lg) as Hd.
  rewrite CalMaxDCGAtK_value; try (cbn [length]; lia).
  apply (f_equal (fun x : R => Ok x (initialised lg))).
  change (Z.to_nat (Z.min 1 2)) with 1%nat. change (Z.to_nat 1) with 1%nat.
  rewrite (proj1 gains_of_example), (proj1 sort_desc_example).
  unfold partial_dcg; cbn [sum_upto nth]. lra.
Qed.

(** The specification's MaxDCGAtK at cutoff 1 on the two items: the best
    gain, 7, at discount 1. *)
Lemma MaxDCGAtK_spec_example :
  MaxDCGAtK_spec discount_table 1 [0; 3]%R [1; 1]%R [1; 1]%R 2 = 7%R.
Proof.
  unfold MaxDCGAtK_spec.
  change (Z.to_nat 2) with 2%nat.
  rewrite (proj2 gains_of_example), (proj2 sort_desc_example).
  change (Z.to_nat (if 1 >? 2 then 2 else 1)) with 1%nat.
  unfold partial_dcg; cbn [sum_upto]. rewrite discount_table_0.
  cbn [nth]. lra.
Qed.

(** CalMaxDCG at the cutoff list [1] on the two items. *)
Lemma CalMaxDCG_example lg :
  CalMaxDCG [1] [0; 3]%R [1; 1]%R [1; 1]%R 2 [0%R] (initialised lg)
  = Ok [7%R] (initialised lg).
Proof.
  pose proof (initialised_discount_length lg) as Hd.
  rewrite CalMaxDCG_value; try (cbn [length]; lia);
    [|repeat constructor; lia].
  apply (f_equal (fun x : list R => Ok x (initialised lg))).
  change (Z.to_nat 2) with 2%nat.
  rewrite (proj2 gains_of_example), (proj2 sort_desc_example).
  cbn [one_pass length skipn app Z.gtb Z.ltb Z.compare Pos.compare
       Pos.compare_cont].
  change (Z.to_nat 1) with 1%nat. change (Z.to_nat 0) with 0%nat.
  cbn [sum_upto discount_ initialised]. rewrite discount_table_0.
  cbn [nth]. f_equal. lra.
Qed.

Lemma score_order_example : score_order [0; 1]%R 2 = [1; 0].
Proof.
  unfold score_order; cbn [seq map stable_sort_pure stable_insert_pure].
  change (Z.of_nat 1) with 1. change (Z.of_nat 0) with 0.
  change (Z.to_nat 1) with 1%nat. change (Z.to_nat 0) with 0%nat.
  cbn [nth]. unfold Rgt_bool. destruct (Rgt_dec 1 0); [|lra]. reflexivity.
Qed.

(** CalDCG at the cutoff list [1] on the two items, the second scored
    higher than the first. *)
Lemma CalDCG_example lg :
  CalDCG [1] [0; 3]%R [0; 1]%R [1; 1]%R [1; 1]%R 2 [0%R] (initialised lg)
  = Ok [7%R] (initialised lg).
Proof.
  pose proof (initialised_discount_length lg) as Hd.
  rewrite CalDCG_value; try (cbn [length]; lia);
    [|repeat constructor; lia].
  apply (f_equal (fun x : list R => Ok x (initialised lg))).
  change (Z.to_nat 2) with 2%nat. rewrite score_order_example.
  cbn [one_pass length skipn app Z.gtb Z.ltb Z.compare Pos.compare
       Pos.compare_cont].
  change (Z.to_nat 1) with 1%nat. change (Z.to_nat 0) with 0%nat.
  cbn [sum_upto discount_ initialised nth]. rewrite discount_table_0.
  change (Z.to_nat 1) with 1%nat.
  rewrite (item_gain_IZR [0; 3]%R [1; 1]%R [1; 1]%R 1%nat 3 eq_refl).
  rewrite CalGain_3. f_equal. lra.
Qed.

(** ** IdealDCGEngine against the specification *)

(** C1: MaxDCGAtK(k, items, n) is specified to sort the gains of all n
    items.  CalMaxDCGAtK sizes its gain vector by k and fills it from the
    first k items: on the items with labels 0 and 3 (thetas 1) and k = 1 it
    returns 0, the specified value being 7; with k = 2 on one item it reads
    label[1], past the end. *)
Theorem CalMaxDCGAtK_sorts_first_k_only (lg : list double) :
  CalMaxDCGAtK 1 [0; 3]%R [1; 1]%R [1; 1]%R 2 (initialised lg)
  = Ok 0%R (initialised lg) /\
  MaxDCGAtK_spec (discount_ (initialised lg)) 1 [0; 3]%R [1; 1]%R [1; 1]%R 2
  = 7%R /\
  CalMaxDCGAtK 2 [3]%R [1]%R [1]%R 1 (initialised lg) = Err OutOfRange.
Proof.
  split; [apply CalMaxDCGAtK_example|].
  split; [apply MaxDCGAtK_spec_example|].
  apply CalMaxDCGAtK_reads_beyond; simpl; lia.
Qed.

(** C2: MaxDCGAtK(k, items) is specified to bound DCG([k], items)[0] from
    above.  On the items with labels 0 and 3 (thetas 1), scores 0 and 1,
    and k = 1, CalMaxDCGAtK returns 0 and CalDCG returns 7. *)
Theorem CalMaxDCGAtK_below_CalDCG (lg : list double) :
  CalMaxDCGAtK 1 [0; 3]%R [1; 1]%R [1; 1]%R 2 (initialised lg)
  = Ok 0%R (initialised lg) /\
  CalDCG [1] [0; 3]%R [0; 1]%R [1; 1]%R [1; 1]%R 2 [0%R] (initialised lg)
  = Ok [7%R] (initialised lg) /\
  (0 < 7)%R.
Proof.
  split; [apply CalMaxDCGAtK_example|].
  split; [apply CalDCG_example|lra].
Qed.

(** C3: MaxDCG(ks, items)[i] is specified to equal MaxDCGAtK(ks[i], items).
    On the items with labels 0 and 3 (thetas 1) and ks = [1], CalMaxDCG
    writes 7 and CalMaxDCGAtK returns 0. *)
Theorem CalMaxDCG_differs_from_CalMaxDCGAtK (lg : list double) :
  CalMaxDCG [1] [0; 3]%R [1; 1]%R [1; 1]%R 2 [0%R] (initialised lg)
  = Ok [7%R] (initialised lg) /\
  CalMaxDCGAtK 1 [0; 3]%R [1; 1]%R [1; 1]%R 2 (initialised lg)
  = Ok 0%R (initialised lg) /\
  (7 <> 0)%R.
Proof.
  split; [apply CalMaxDCG_example|].
  split; [apply CalMaxDCGAtK_example|lra].
Qed.

(** On ascending cutoffs the one-pass accumulation records, for every
    cutoff, the sum of the terms below the clamped cutoff. *)
Lemma one_pass_ascending term num_data :
  forall ks cl,
    0 <= cl <= num_data ->
    Forall (fun k => cl <= k) ks ->
    StronglySorted Z.le ks ->
    one_pass term num_data ks (sum_upto term (Z.to_nat cl)) cl
    = map (fun k => sum_upto term
                      (Z.to_nat (if k >? num_data then num_data else k)))
          ks.
Proof.
  induction ks as [|k ks IH]; intros cl Hcl Hge Hs; [reflexivity|].
  inversion Hge as [|? ? Hk Hge']; subst.
  inversion Hs as [|? ? Hs' Hall]; subst.
  cbn [one_pass map].
  set (cur_k := if k >? num_data then num_data else k).
  assert (Hck : cl <= cur_k <= num_data)
    by (unfold cur_k; destruct (Z.gtb_spec k num_data); lia).
  assert (Hcr : (if cl <? cur_k
                 then (sum_upto term (Z.to_nat cl)
                       + (sum_upto term (Z.to_nat cur_k)
                          - sum_upto term (Z.to_nat cl)))%R
                 else sum_upto term (Z.to_nat cl))
                = sum_upto term (Z.to_nat cur_k)).
  { destruct (Z.ltb_spec cl cur_k); [lra|].
    now replace cur_k with cl by lia. }
  rewrite Hcr. f_equal.
  apply IH; [lia| |assumption].
  rewrite Forall_forall in *. intros k' Hk'.
  specialize (Hall k' Hk'). specialize (Hge' k' Hk').
  unfold cur_k; destruct (Z.gtb_spec k num_data); lia.
Qed.

(** CalMaxDCG, the multi-cutoff sibling, does compute the specification's
    MaxDCGAtK at every cutoff of an ascending list. *)
Lemma CalMaxDCG_matches_spec ks label theta1 theta2 num_data out st :
  Z.of_nat (length label) = num_data ->
  Z.of_nat (length theta1) = num_data ->
  Z.of_nat (length theta2) = num_data ->
  num_data <= Z.of_nat (length (discount_ st)) ->
  Forall (fun k => 0 <= k) ks ->
  StronglySorted Z.le ks ->
  length out = length ks ->
  CalMaxDCG ks label theta1 theta2 num_data out st
  = Ok (map (fun k => MaxDCGAtK_spec (discount_ st) k label theta1 theta2
                        num_data) ks) st.
Proof.
  intros Hl H1 H2 Hd Hpos Hs Hout.
  rewrite CalMaxDCG_value; try lia; try assumption.
  rewrite <- Hout, skipn_all, app_nil_r.
  set (term := fun j => (nth j (discount_ st) 0
                         * nth j (sort_desc (gains_of label theta1 theta2
                                               (Z.to_nat num_data))) 0)%R).
  change (one_pass term num_data ks 0%R 0)
    with (one_pass term num_data ks (sum_upto term (Z.to_nat 0)) 0).
  rewrite one_pass_ascending; [reflexivity|lia|assumption|assumption].
Qed.

(** ** Cutoffs beyond the item count *)

(** The accumulation loops read [discount_[j]] for every position below
    the clamped cutoff: with more positions than the table has entries,
    the read at the table's length is past the end. *)
Lemma accumulate_then_fail (term : nat -> R) (body : Z -> R -> M R)
    mid hi acc e st :
  0 <= mid < hi ->
  (forall j a, 0 <= j < mid ->
               body j a st = Ok (a + term (Z.to_nat j))%R st) ->
  (forall a, body mid a st = Err e) ->
  for_loop 0 hi body acc st = Err e.
Proof.
  intros Hmid Hok Hfail.
  rewrite (for_loop_split 0 mid hi) by lia.
  rewrite (bind_Ok _ _ _ _ _
             (accumulate_loop term body 0 mid acc st ltac:(lia) Hok)).
  rewrite for_loop_step by lia. apply bind_Err, Hfail.
Qed.

Lemma CalMaxDCG_beyond_table k ks label theta1 theta2 num_data out st :
  num_data <= Z.of_nat (length label) ->
  num_data <= Z.of_nat (length theta1) ->
  num_data <= Z.of_nat (length theta2) ->
  Z.of_nat (length (discount_ st)) < num_data ->
  Z.of_nat (length (discount_ st)) < k ->
  CalMaxDCG (k :: ks) label theta1 theta2 num_data out st = Err OutOfRange.
Proof.
  intros Hl H1 H2 Hd Hk. unfold CalMaxDCG.
  rewrite bind_assoc.
  rewrite (bind_Ok _ _ _ _ _
             (gains_loop label theta1 theta2 num_data st ltac:(lia) Hl H1 H2)).
  cbv zeta.
  fold (sort_desc (gains_of label theta1 theta2 (Z.to_nat num_data))).
  set (gains := sort_desc (gains_of label theta1 theta2 (Z.to_nat num_data))).
  assert (Hg : Z.of_nat (length gains) = num_data)
    by (unfold gains; rewrite sort_desc_length, gains_of_length; lia).
  apply bind_Err.
  rewrite for_loop_step by (simpl length; lia).
  apply bind_Err.
  rewrite (bind_Ok _ _ _ _ _ (read_Ok (k :: ks) 0 k st ltac:(lia) eq_refl)).
  cbv zeta. apply bind_Err.
  apply (accumulate_then_fail
           (fun j => (nth j (discount_ st) 0 * nth j gains 0)%R)
           _ (Z.of_nat (length (discount_ st)))).
  - destruct (Z.gtb_spec k num_data); lia.
  - intros j a Hj.
    unfold bind at 1, get_discount at 1.
    rewrite (bind_Ok _ _ _ _ _ (read_nth (discount_ st) j 0%R st ltac:(lia))).
    rewrite (bind_Ok _ _ _ _ _ (read_nth gains j 0%R st ltac:(lia))).
    reflexivity.
  - intros a. unfold bind at 1, get_discount at 1.
    apply bind_Err, read_OutOfRange. right; lia.
Qed.

Lemma CalDCG_beyond_table k ks label score theta1 theta2 num_data out st :
  num_data <= Z.of_nat (length label) ->
  num_data <= Z.of_nat (length score) ->
  num_data <= Z.of_nat (length theta1) ->
  num_data <= Z.of_nat (length theta2) ->
  Z.of_nat (length (discount_ st)) < num_data ->
  Z.of_nat (length (discount_ st)) < k ->
  CalDCG (k :: ks) label score theta1 theta2 num_data out st
  = Err OutOfRange.
Proof.
  intros Hl Hs H1 H2 Hd Hk. unfold CalDCG.
  assert (Hn : 0 <= num_data) by lia.
  assert (Hidx : (sorted_idx <- vector_new 0 num_data ;;
                  for_loop 0 num_data (fun i v => write v i i) sorted_idx) st
                 = Ok (map Z.of_nat (seq 0 (Z.to_nat num_data))) st).
  { unfold vector_new. destruct (Z.ltb_spec num_data 0); [lia|].
    unfold bind at 1, ret at 1.
    apply (for_loop_fill (fun i => i)); [rewrite repeat_length; lia|].
    reflexivity. }
  rewrite bind_assoc. rewrite (bind_Ok _ _ _ _ _ Hidx).
  erewrite bind_Ok.
  2:{ apply (stable_sort_Ok _
               (fun a b => Rgt_bool (nth (Z.to_nat a) score 0%R)
                                    (nth (Z.to_nat b) score 0%R))).
      intros a b Ha Hb.
      apply in_map_iff in Ha. destruct Ha as (ka & <- & Hka).
      apply in_map_iff in Hb. destruct Hb as (kb & <- & Hkb).
      apply in_seq in Hka. apply in_seq in Hkb.
      rewrite (bind_Ok _ _ _ _ _
                 (read_nth score (Z.of_nat ka) 0%R st ltac:(lia))).
      rewrite (bind_Ok _ _ _ _ _
                 (read_nth score (Z.of_nat kb) 0%R st ltac:(lia))).
      reflexivity. }
  fold (score_order score (Z.to_nat num_data)).
  set (order := score_order score (Z.to_nat num_data)).
  assert (Hidx_range : forall j, 0 <= j < num_data ->
            0 <= nth (Z.to_nat j) order 0 < num_data).
  { intros j Hj.
    assert (0 <= nth (Z.to_nat j) order 0 < Z.of_nat (Z.to_nat num_data));
      [|lia].
    apply (score_order_range score). apply nth_In.
    rewrite score_order_length. lia. }
  assert (Hread : forall j (rest : Z -> M R), 0 <= j < num_data ->
            (idx <- read order j ;; rest idx) st
            = rest (nth (Z.to_nat j) order 0) st).
  { intros j rest Hj.
    apply bind_Ok, read_nth. unfold order. rewrite score_order_length. lia. }
  apply bind_Err.
  rewrite for_loop_step by (simpl length; lia).
  apply bind_Err.
  rewrite (bind_Ok _ _ _ _ _ (read_Ok (k :: ks) 0 k st ltac:(lia) eq_refl)).
  cbv zeta. apply bind_Err.
  apply (accumulate_then_fail
           (fun j => (item_gain label theta1 theta2
                        (Z.to_nat (nth j order 0%Z))
                      * nth j (discount_ st) 0)%R)
           _ (Z.of_nat (length (discount_ st)))).
  - destruct (Z.gtb_spec k num_data); lia.
  - intros j a Hj.
    rewrite Hread by lia.
    pose proof (Hidx_range j ltac:(lia)) as Hr.
    set (idx := nth (Z.to_nat j) order 0) in *.
    rewrite (bind_Ok _ _ _ _ _ (read_nth label idx 0%R st ltac:(lia))).
    rewrite (bind_Ok _ _ _ _ _ (read_nth theta1 idx 0%R st ltac:(lia))).
    rewrite (bind_Ok _ _ _ _ _ (read_nth theta2 idx 0%R st ltac:(lia))).
    unfold bind at 1, get_discount at 1.
    rewrite (bind_Ok _ _ _ _ _ (read_nth (discount_ st) j 0%R st ltac:(lia))).
    reflexivity.
  - intros a.
    rewrite Hread by lia.
    pose proof (Hidx_range (Z.of_nat (length (discount_ st))) ltac:(lia)) as Hr.
    set (idx := nth (Z.to_nat (Z.of_nat (length (discount_ st)))) order 0) in *.
    rewrite (bind_Ok _ _ _ _ _ (read_nth label idx 0%R st ltac:(lia))).
    rewrite (bind_Ok _ _ _ _ _ (read_nth theta1 idx 0%R st ltac:(lia))).
    rewrite (bind_Ok _ _ _ _ _ (read_nth theta2 idx 0%R st ltac:(lia))).
    unfold bind at 1, get_discount at 1.
    apply bind_Err, read_OutOfRange. right; lia.
Qed.

Lemma Init_initialised lg st0 st :
  Init lg st0 = Ok tt st -> st = initialised lg.
Proof. rewrite Init_result. intros H; injection H as <-. reflexivity. Qed.




(** ** What the computations read of the static members *)

Lemma agree_result_of {A} st1 st2 (o1 o2 : outcome A) :
  agree st1 st2 o1 o2 -> result_of o1 = result_of o2.
Proof.
  destruct o1, o2; simpl; try contradiction.
  - now intros (-> & _).
  - now intros ->.
Qed.

Section ReadsOnly.

Context {X : Type} (obs : statics -> X).

Lemma reads_only_ret {A} (a : A) : reads_only obs (ret a).
Proof. intros st1 st2 _; simpl; auto. Qed.

Lemma reads_only_raise {A} e : reads_only obs (@raise A e).
Proof. intros st1 st2 _; reflexivity. Qed.

Lemma reads_only_bind {A B} (m : M A) (f : A -> M B) :
  reads_only obs m -> (forall a, reads_only obs (f a)) ->
  reads_only obs (bind m f).
Proof.
  intros Hm Hf st1 st2 Hobs. unfold bind.
  specialize (Hm st1 st2 Hobs). unfold agree in Hm.
  destruct (m st1) as [a s1|e1], (m st2) as [b s2|e2]; try contradiction.
  - destruct Hm as (-> & -> & ->). now apply Hf.
  - exact Hm.
Qed.

Lemma reads_only_read {A} (v : list A) j : reads_only obs (read v j).
Proof.
  unfold read. destruct (j <? 0); [apply reads_only_raise|].
  destruct (nth_error v (Z.to_nat j));
    [apply reads_only_ret|apply reads_only_raise].
Qed.

Lemma reads_only_write {A} (v : list A) j x : reads_only obs (write v j x).
Proof.
  unfold write.
  destruct ((j <? 0) || (Z.of_nat (length v) <=? j));
    [apply reads_only_raise|apply reads_only_ret].
Qed.

Lemma reads_only_vector_new {A} (zero : A) n :
  reads_only obs (vector_new zero n).
Proof.
  unfold vector_new.
  destruct (n <? 0); [apply reads_only_raise|apply reads_only_ret].
Qed.

Lemma reads_only_iterate {T} (body : Z -> T -> M T) :
  (forall j s, reads_only obs (body j s)) ->
  forall n j s, reads_only obs (iterate body j n s).
Proof.
  intros Hbody. induction n as [|n IH]; intros j s; simpl.
  - apply reads_only_ret.
  - apply reads_only_bind; [apply Hbody|]. intros s'. apply IH.
Qed.

Lemma reads_only_for_loop {T} lo hi (body : Z -> T -> M T) s :
  (forall j s, reads_only obs (body j s)) ->
  reads_only obs (for_loop lo hi body s).
Proof. intros Hbody. now apply reads_only_iterate. Qed.

Lemma reads_only_stable_insert {A} (comp : A -> A -> M bool) x l :
  (forall a b, reads_only obs (comp a b)) ->
  reads_only obs (stable_insert comp x l).
Proof.
  intros Hc. induction l as [|y l IH]; simpl.
  - apply reads_only_ret.
  - apply reads_only_bind; [apply Hc|].
    intros [|]; [|apply reads_only_ret].
    apply reads_only_bind; [exact IH|]. intros r. apply reads_only_ret.
Qed.

Lemma reads_only_stable_sort {A} (comp : A -> A -> M bool) l :
  (forall a b, reads_only obs (comp a b)) ->
  reads_only obs (stable_sort comp l).
Proof.
  intros Hc. induction l as [|x l IH]; simpl.
  - apply reads_only_ret.
  - apply reads_only_bind; [exact IH|].
    intros s. now apply reads_only_stable_insert.
Qed.

End ReadsOnly.

Lemma reads_only_get_discount : reads_only discount_ get_discount.
Proof. intros st1 st2 H; simpl; auto. Qed.

Create HintDb reads_only.
#[local] Hint Resolve reads_only_ret reads_only_raise reads_only_read
  reads_only_write reads_only_vector_new reads_only_get_discount
  : reads_only.

Ltac reads_only_step :=
  match goal with
  | |- reads_only _ (bind _ _) => apply reads_only_bind; [|intros ?]
  | |- reads_only _ (for_loop _ _ _ _) =>
      apply reads_only_for_loop; intros ? ?
  | |- reads_only _ (stable_sort _ _) =>
      apply reads_only_stable_sort; intros ? ?
  | |- reads_only _ (let '(_, _) := ?p in _) => destruct p
  | |- reads_only _ (if ?b then _ else _) => destruct b
  | |- reads_only _ _ => solve [auto with reads_only]
  end.

Lemma CalMaxDCGAtK_reads_discount k label theta1 theta2 num_data :
  reads_only discount_ (CalMaxDCGAtK k label theta1 theta2 num_data).
Proof. unfold CalMaxDCGAtK. repeat reads_only_step. Qed.

Lemma CalMaxDCG_reads_discount ks label theta1 theta2 num_data out :
  reads_only discount_ (CalMaxDCG ks label theta1 theta2 num_data out).
Proof. unfold CalMaxDCG. repeat reads_only_step. Qed.

Lemma CalDCG_reads_discount ks label score theta1 theta2 num_data out :
  reads_only discount_ (CalDCG ks label score theta1 theta2 num_data out).
Proof. unfold CalDCG. repeat reads_only_step. Qed.

Lemma CheckLabel_reads_table_size kEpsilon label num_data :
  reads_only (fun st => length (label_gain_ st))
             (CheckLabel kEpsilon label num_data).
Proof.
  unfold CheckLabel. apply reads_only_for_loop; intros j s.
  apply reads_only_bind; [auto with reads_only|intros li].
  cbv zeta.
  apply reads_only_bind;
    [destruct (Rgt_bool _ _); auto with reads_only|intros _].
  apply reads_only_bind;
    [destruct (Rlt_bool _ _); auto with reads_only|intros _].
  intros st1 st2 H. cbv beta in H. unfold bind, get_label_gain, agree.
  rewrite H. destruct (_ <=? _); simpl; auto.
Qed.

Lemma CheckLabel_table_size_example :
  CheckLabel 0 [1]%R 1 (mkStatics [0]%R []) = Err (Fatal LabelTooLarge) /\
  CheckLabel 0 [1]%R 1 (mkStatics [0; 1]%R []) = Ok tt (mkStatics [0; 1]%R []).
Proof.
  assert (E1 : static_cast_int 1 = 1) by apply (static_cast_int_IZR 1).
  unfold CheckLabel, for_loop; simpl iterate.
  split.
  all: cbv beta iota delta [bind ret read Z.ltb Z.compare Z.to_nat nth_error
                              get_label_gain static_cast_size_t].
  all: rewrite E1; unfold Rgt_bool, Rlt_bool.
  all: destruct (Rgt_dec (Rabs (1 - 1)) 0) as [H|_];
    [exfalso; rewrite Rminus_diag, Rabs_R0 in H; lra|].
  all: destruct (Rlt_dec 1 0) as [H|_]; [lra|]; reflexivity.
Qed.

(** C9: the label-gain table given to Init never influences a metric
    value: for any two tables installed by Init (from any earlier static
    members), Gain, MaxDCGAtK, MaxDCG and DCG return identical results on
    identical inputs.  The table is read by CheckLabel only, and only for
    its size: tables of equal size give CheckLabel the same result, tables
    of different sizes need not. *)
Theorem label_gain_table_only_bounds_labels
    (lg1 lg2 : list double) (st1 st2 : statics)
    (l : Z) (th1 th2 : double)
    (k num_data : data_size_t) (ks : list data_size_t)
    (label : list label_t) (score theta1 theta2 out : list double)
    (kEpsilon : double) :
  result_of ((Init lg1 ;; ret (CalGain l th1 th2)) st1)
  = result_of ((Init lg2 ;; ret (CalGain l th1 th2)) st2) /\
  result_of ((Init lg1 ;; CalMaxDCGAtK k label theta1 theta2 num_data) st1)
  = result_of ((Init lg2 ;; CalMaxDCGAtK k label theta1 theta2 num_data) st2)
  /\
  result_of ((Init lg1 ;; CalMaxDCG ks label theta1 theta2 num_data out) st1)
  = result_of ((Init lg2 ;; CalMaxDCG ks label theta1 theta2 num_data out) st2)
  /\
  result_of
    ((Init lg1 ;; CalDCG ks label score theta1 theta2 num_data out) st1)
  = result_of
      ((Init lg2 ;; CalDCG ks label score theta1 theta2 num_data out) st2)
  /\
  (length lg1 = length lg2 ->
   result_of ((Init lg1 ;; CheckLabel kEpsilon label num_data) st1)
   = result_of ((Init lg2 ;; CheckLabel kEpsilon label num_data) st2)) /\
  result_of ((Init [0]%R ;; CheckLabel 0 [1]%R 1) st1)
  <> result_of ((Init [0; 1]%R ;; CheckLabel 0 [1]%R 1) st1).
Proof.
  rewrite !(bind_Ok _ _ _ _ _ (Init_result _ _)).
  repeat split.
  - apply agree_result_of with (st1 := initialised lg1) (st2 := initialised lg2).
    now apply CalMaxDCGAtK_reads_discount.
  - apply agree_result_of with (st1 := initialised lg1) (st2 := initialised lg2).
    now apply CalMaxDCG_reads_discount.
  - apply agree_result_of with (st1 := initialised lg1) (st2 := initialised lg2).
    now apply CalDCG_reads_discount.
  - intros Hlen.
    apply agree_result_of with (st1 := initialised lg1) (st2 := initialised lg2).
    now apply CheckLabel_reads_table_size.
  - pose proof (CheckLabel_reads_table_size 0 [1]%R 1
                  (mkStatics [0]%R []) (mkStatics [0]%R discount_table)
                  eq_refl) as H1.
    pose proof (CheckLabel_reads_table_size 0 [1]%R 1
                  (mkStatics [0; 1]%R []) (mkStatics [0; 1]%R discount_table)
                  eq_refl) as H2.
    apply agree_result_of in H1. apply agree_result_of in H2.
    destruct CheckLabel_table_size_example as [E1 E2].
    rewrite E1 in H1. rewrite E2 in H2.
    rewrite <- H1, <- H2. simpl. discriminate.
Qed.

(** ** Defaults *)

Lemma DefaultLabelGain_default st :
  DefaultLabelGain [] st
  = Ok (map (fun i => IZR (2 ^ Z.of_nat i - 1)) (seq 0 31)) st.
Proof. reflexivity. Qed.

Lemma DefaultLabelGain_keeps label_gain st :
  label_gain <> [] -> DefaultLabelGain label_gain st = Ok label_gain st.
Proof. destruct label_gain; [congruence|reflexivity]. Qed.

Lemma DefaultEvalAt_default st :
  DefaultEvalAt [] st = Ok [1; 2; 3; 4; 5] st.
Proof. reflexivity. Qed.

Lemma DefaultEvalAt_rejects_zero st :
  DefaultEvalAt [3; 0] st = Err (Fatal CheckFailed).
Proof. reflexivity. Qed.

(** ** The ideal DCG bounds the observed DCG *)

Lemma sum_upto_ext (f g : nat -> R) m :
  (forall j, (j < m)%nat -> f j = g j) -> sum_upto f m = sum_upto g m.
Proof.
  induction m as [|m IH]; intros H; simpl; [reflexivity|].
  rewrite IH, H by auto with arith. reflexivity.
Qed.

Lemma sum_upto_shift (f : nat -> R) m :
  sum_upto f (S m) = (f O + sum_upto (fun j => f (S j)) m)%R.
Proof.
  induction m as [|m IH]; [simpl; lra|].
  change (sum_upto f (S (S m))) with (sum_upto f (S m) + f (S m))%R.
  rewrite IH. simpl. lra.
Qed.

Lemma sum_upto_firstn (l : list R) :
  forall m, sum_upto (fun j => nth j l 0%R) m = sum_list (firstn m l).
Proof.
  induction l as [|x l IH]; intros m.
  - rewrite firstn_nil.
    rewrite (sum_upto_ext _ (fun _ => 0%R))
      by (intros j _; destruct j; reflexivity).
    induction m as [|m IHm]; simpl in *; lra.
  - destruct m as [|m]; [reflexivity|].
    rewrite sum_upto_shift. cbn [nth firstn sum_list]. now rewrite IH.
Qed.

Lemma insert_desc_perm x l : Permutation (x :: l) (insert_desc x l).
Proof.
  induction l as [|y l IH]; simpl; [reflexivity|].
  destruct (Rle_dec y x); [reflexivity|].
  rewrite perm_swap. now constructor.
Qed.

Lemma isort_desc_perm l : Permutation l (isort_desc l).
Proof.
  induction l as [|x l IH]; simpl; [constructor|].
  rewrite <- insert_desc_perm. now constructor.
Qed.

Lemma insert_desc_sorted x l :
  StronglySorted Rge l -> StronglySorted Rge (insert_desc x l).
Proof.
  induction 1 as [|y l Hs IH Hy]; simpl.
  - repeat constructor.
  - destruct (Rle_dec y x) as [Hxy|Hxy].
    + constructor; [now constructor|].
      constructor; [lra|].
      rewrite Forall_forall in *. intros z Hz. specialize (Hy z Hz). lra.
    + constructor; [exact IH|].
      rewrite Forall_forall in *. intros z Hz.
      apply (Permutation_in _ (Permutation_sym (insert_desc_perm x l))) in Hz.
      destruct Hz as [<-|Hz]; [lra|now apply Hy].
Qed.

Lemma isort_desc_sorted l : StronglySorted Rge (isort_desc l).
Proof.
  induction l as [|x l IH]; simpl; [constructor|now apply insert_desc_sorted].
Qed.

Lemma sorted_snoc (l : list R) x :
  StronglySorted Rle l -> Forall (fun y => (y <= x)%R) l ->
  StronglySorted Rle (l ++ [x]).
Proof.
  induction 1 as [|y l Hs IH Hy]; intros Hx; simpl.
  - repeat constructor.
  - inversion Hx as [|? ? Hyx Hx']; subst.
    constructor; [now apply IH|].
    apply Forall_app; split; [exact Hy|].
    constructor; [exact Hyx|constructor].
Qed.

Lemma rev_sorted_desc l : StronglySorted Rge l -> StronglySorted Rle (rev l).
Proof.
  induction 1 as [|y l Hs IH Hy]; simpl; [constructor|].
  apply sorted_snoc; [exact IH|].
  rewrite Forall_forall in *. intros z Hz.
  apply in_rev in Hz. specialize (Hy z Hz). lra.
Qed.

(** The descending insertion sort is [sort_desc]. *)
Lemma sort_desc_isort l : sort_desc l = isort_desc l.
Proof.
  unfold sort_desc.
  rewrite <- (rev_involutive (isort_desc l)). f_equal. symmetry.
  apply sort_asc_unique.
  - rewrite <- Permutation_rev. apply isort_desc_perm.
  - apply rev_sorted_desc, isort_desc_sorted.
Qed.

Lemma insert_desc_top x :
  forall l j,
    (x + sum_list (firstn j l) <= sum_list (firstn (S j) (insert_desc x l)))%R.
Proof.
  induction l as [|y l IH]; intros j.
  - rewrite firstn_nil. simpl. rewrite firstn_nil. simpl. lra.
  - cbn [insert_desc]. destruct (Rle_dec y x) as [Hyx|Hyx].
    + cbn [firstn sum_list]. lra.
    + destruct j as [|j].
      * simpl. lra.
      * specialize (IH j). cbn [firstn sum_list] in *. lra.
Qed.

(** The first [j] elements of a list never sum to more than the first
    [j] of its descending sort. *)
Lemma prefix_sum_le_sorted p :
  forall j, (sum_list (firstn j p) <= sum_list (firstn j (isort_desc p)))%R.
Proof.
  induction p as [|x p IH]; intros j.
  - simpl. rewrite firstn_nil. lra.
  - destruct j as [|j]; [simpl; lra|].
    change (firstn (S j) (x :: p)) with (x :: firstn j p).
    change (isort_desc (x :: p)) with (insert_desc x (isort_desc p)).
    cbn [sum_list].
    pose proof (insert_desc_top x (isort_desc p) j).
    specialize (IH j). lra.
Qed.

Lemma prefix_sum_le_sort_desc p l j :
  Permutation p l ->
  (sum_list (firstn j p) <= sum_list (firstn j (sort_desc l)))%R.
Proof.
  intros HP.
  replace (sort_desc l) with (isort_desc p); [apply prefix_sum_le_sorted|].
  rewrite <- sort_desc_isort. unfold sort_desc. f_equal.
  apply sort_asc_unique; [|apply sort_asc_sorted].
  rewrite <- HP. apply sort_asc_perm.
Qed.

Lemma nonincreasing_le (d : nat -> R) :
  (forall j, (d (S j) <= d j)%R) ->
  forall m j, (j <= m)%nat -> (d m <= d j)%R.
Proof.
  intros Hd m j Hj. induction Hj as [|m Hj IH]; [lra|].
  specialize (Hd m). lra.
Qed.

(** Summation by parts: with non-negative, non-increasing weights, the
    sequence with the larger prefix sums has the larger weighted sum. *)
Lemma weighted_domination (d p s : nat -> R) :
  (forall j, (0 <= d j)%R) ->
  (forall j, (d (S j) <= d j)%R) ->
  forall m,
    (forall j, (j <= m)%nat -> (sum_upto p j <= sum_upto s j)%R) ->
    (sum_upto (fun j => d j * p j) m <= sum_upto (fun j => d j * s j) m)%R.
Proof.
  intros Hd0 Hd m.
  assert (Hstrong : forall c,
            (0 <= c)%R -> (forall j, (j < m)%nat -> (c <= d j)%R) ->
            (forall j, (j <= m)%nat -> (sum_upto p j <= sum_upto s j)%R) ->
            (c * (sum_upto s m - sum_upto p m)
             <= sum_upto (fun j => d j * s j) m
                - sum_upto (fun j => d j * p j) m)%R).
  { induction m as [|m IH]; intros c Hc Hcd Hpre.
    - simpl. lra.
    - specialize (IH (d m) (Hd0 m)
                     (fun j Hj => nonincreasing_le d Hd m j (Nat.lt_le_incl _ _ Hj))
                     (fun j Hj => Hpre j (Nat.le_trans _ _ _ Hj (Nat.le_succ_diag_r m)))).
      pose proof (Hpre (S m) (Nat.le_refl _)) as Hlast.
      pose proof (Hcd m (Nat.lt_succ_diag_r m)) as Hcm.
      cbn [sum_upto] in *.
      set (Pm := sum_upto p m) in *. set (Sm := sum_upto s m) in *.
      set (A := sum_upto (fun j => (d j * s j)%R) m) in *.
      set (B := sum_upto (fun j => (d j * p j)%R) m) in *.
      nra. }
  intros Hpre. specialize (Hstrong 0%R (Rle_refl 0) (fun j _ => Hd0 j) Hpre).
  lra.
Qed.

Lemma discount_table_nth_nat j :
  (j < length discount_table)%nat ->
  nth j discount_table 0%R = (1 / log2 (2 + IZR (Z.of_nat j)))%R.
Proof.
  intros Hj. pose proof discount_table_length as Hlen.
  rewrite <- (discount_table_nth (Z.of_nat j) 0%R) by lia.
  now rewrite Nat2Z.id.
Qed.

Lemma discount_table_nonneg j : (0 <= nth j discount_table 0)%R.
Proof.
  destruct (Nat.lt_ge_cases j (length discount_table)) as [Hj|Hj].
  - rewrite discount_table_nth_nat by assumption.
    assert (Hpos : (0 <= IZR (Z.of_nat j))%R) by (apply IZR_le; lia).
    pose proof (log2_ge_1 (2 + IZR (Z.of_nat j)) ltac:(lra)).
    apply Rlt_le, Rdiv_lt_0_compat; lra.
  - rewrite nth_overflow by assumption. lra.
Qed.

Lemma discount_table_nonincreasing j :
  (nth (S j) discount_table 0 <= nth j discount_table 0)%R.
Proof.
  destruct (Nat.lt_ge_cases (S j) (length discount_table)) as [Hj|Hj].
  - rewrite !discount_table_nth_nat by lia.
    apply Rlt_le, discount_decreasing. lia.
  - rewrite (nth_overflow _ _ Hj). apply discount_table_nonneg.
Qed.

(** The gains in score order are a rearrangement of the gains. *)
Lemma observed_gains_perm label theta1 theta2 score n :
  Permutation
    (map (fun idx => item_gain label theta1 theta2 (Z.to_nat idx))
         (score_order score n))
    (gains_of label theta1 theta2 n).
Proof.
  unfold gains_of, score_order.
  rewrite <- (Permutation_map _ (stable_sort_pure_perm _ _)).
  rewrite map_map.
  erewrite map_ext; [reflexivity|].
  intros k; cbv beta. now rewrite Nat2Z.id.
Qed.

Lemma ideal_sum_bounds_observed_sum label theta1 theta2 score n m :
  (m <= n)%nat ->
  (sum_upto
     (fun j => item_gain label theta1 theta2
                 (Z.to_nat (nth j (score_order score n) 0%Z))
               * nth j discount_table 0) m
   <= sum_upto
        (fun j => nth j discount_table 0
                  * nth j (sort_desc (gains_of label theta1 theta2 n)) 0) m)%R.
Proof.
  intros Hm.
  set (f := fun idx => item_gain label theta1 theta2 (Z.to_nat idx)).
  set (observed := map f (score_order score n)).
  rewrite (sum_upto_ext _
             (fun j => (nth j discount_table 0 * nth j observed 0)%R)).
  - apply (weighted_domination (fun j => nth j discount_table 0%R)
                               (fun j => nth j observed 0%R)
                               (fun j => nth j (sort_desc (gains_of label theta1 theta2 n)) 0%R)).
    + apply discount_table_nonneg.
    + apply discount_table_nonincreasing.
    + intros j _. rewrite !sum_upto_firstn.
      apply prefix_sum_le_sort_desc, observed_gains_perm.
  - intros j Hj. rewrite Rmult_comm. f_equal.
    unfold observed.
    rewrite (nth_indep _ 0%R (f 0))
      by (rewrite length_map, score_order_length; lia).
    now rewrite map_nth.
Qed.

Lemma one_pass_single term num_data k :
  0 <= k -> 0 <= num_data ->
  one_pass term num_data [k] 0%R 0
  = [sum_upto term (Z.to_nat (if k >? num_data then num_data else k))].
Proof.
  intros Hk Hn.
  change (one_pass term num_data [k] 0%R 0)
    with (one_pass term num_data [k] (sum_upto term (Z.to_nat 0)) 0).
  rewrite one_pass_ascending; [reflexivity|lia| |];
    repeat constructor; assumption.
Qed.

(** The bound the specification states for the ideal engine holds for
    CalMaxDCG: at every cutoff it is at least the observed DCG, whatever
    the scores. *)
Lemma CalMaxDCG_bounds_CalDCG lg st0 st k n label score theta1 theta2 out :
  Init lg st0 = Ok tt st ->
  Z.of_nat (length label) = n ->
  Z.of_nat (length score) = n ->
  Z.of_nat (length theta1) = n ->
  Z.of_nat (length theta2) = n ->
  length out = 1%nat ->
  n <= 10000 ->
  0 <= k ->
  exists ideal observed,
    CalMaxDCG [k] label theta1 theta2 n out st = Ok [ideal] st /\
    CalDCG [k] label score theta1 theta2 n out st = Ok [observed] st /\
    ideal = MaxDCGAtK_spec (discount_ st) k label theta1 theta2 n /\
    (observed <= ideal)%R.
Proof.
  intros Hinit Hl Hs H1 H2 Hout Hn Hk.
  apply Init_initialised in Hinit. subst st.
  pose proof (initialised_discount_length lg) as Hd.
  assert (Hn0 : 0 <= n) by lia.
  assert (Hskip : skipn (length [k]) out = [])
    by (apply skipn_all2; simpl; lia).
  do 2 eexists. split; [|split; [|split]].
  - rewrite CalMaxDCG_value; try lia;
      [|repeat constructor; lia|simpl; lia].
    rewrite Hskip, app_nil_r, one_pass_single by lia. reflexivity.
  - rewrite CalDCG_value; try lia;
      [|repeat constructor; lia|simpl; lia].
    rewrite Hskip, app_nil_r, one_pass_single by lia. reflexivity.
  - reflexivity.
  - cbn [discount_ initialised].
    apply ideal_sum_bounds_observed_sum.
    destruct (Z.gtb_spec k n); lia.
Qed.

(** ** The worked example of the specification *)

(** Labels 0, 1, 2, 3, all thetas 1, scores 10, 5, 20, 1. *)

Ltac decide_order :=
  repeat (cbn [sort_asc insert_asc stable_sort_pure stable_insert_pure];
          rewrite ?Nat2Z.id; cbn [nth];
          unfold Rgt_bool;
          match goal with
          | |- context [Rle_dec ?a ?b] =>
              destruct (Rle_dec a b); [try lra|try lra]
          | |- context [Rgt_dec ?a ?b] =>
              destruct (Rgt_dec a b); [try lra|try lra]
          end).

Lemma worked_gains :
  gains_of [0; 1; 2; 3]%R [1; 1; 1; 1]%R [1; 1; 1; 1]%R 4 = [0; 1; 3; 7]%R.
Proof.
  unfold gains_of; cbn [seq map].
  rewrite (item_gain_IZR [0; 1; 2; 3]%R [1; 1; 1; 1]%R [1; 1; 1; 1]%R
             0%nat 0 eq_refl).
  rewrite (item_gain_IZR [0; 1; 2; 3]%R [1; 1; 1; 1]%R [1; 1; 1; 1]%R
             1%nat 1 eq_refl).
  rewrite (item_gain_IZR [0; 1; 2; 3]%R [1; 1; 1; 1]%R [1; 1; 1; 1]%R
             2%nat 2 eq_refl).
  rewrite (item_gain_IZR [0; 1; 2; 3]%R [1; 1; 1; 1]%R [1; 1; 1; 1]%R
             3%nat 3 eq_refl).
  cbn [nth]. rewrite CalGain_3. unfold CalGain; cbn [Z.eqb Pos.eqb].
  repeat f_equal; lra.
Qed.

Lemma worked_sort : sort_desc [0; 1; 3; 7]%R = [7; 3; 1; 0]%R.
Proof. unfold sort_desc. decide_order. reflexivity. Qed.

Lemma worked_order : score_order [10; 5; 20; 1]%R 4 = [2; 0; 1; 3].
Proof. unfold score_order; cbn [seq map]. decide_order. reflexivity. Qed.

Lemma discount_table_small j :
  (j < 4)%nat ->
  nth j discount_table 0%R = (1 / log2 (2 + IZR (Z.of_nat j)))%R.
Proof.
  intros Hj. apply discount_table_nth_nat.
  pose proof discount_table_length. lia.
Qed.

(** With k = n = 4 all three entry points see the four items: the ideal
    value is 7 * 1 + 3 / log2(3) + 1 / log2(4) + 0 / log2(5), the observed
    one 3 * 1 + 0 / log2(3) + 1 / log2(4) + 7 / log2(5). *)
Lemma worked_example lg (st := initialised lg)
    (label := [0; 1; 2; 3]%R) (ones := [1; 1; 1; 1]%R)
    (score := [10; 5; 20; 1]%R) :
  CalMaxDCGAtK 4 label ones ones 4 st
  = Ok (7 * 1 + 3 * (1 / log2 3) + 1 * (1 / log2 4) + 0 * (1 / log2 5))%R st
  /\
  CalMaxDCG [4] label ones ones 4 [0%R] st
  = Ok [(7 * 1 + 3 * (1 / log2 3) + 1 * (1 / log2 4) + 0 * (1 / log2 5))%R] st
  /\
  CalDCG [4] label score ones ones 4 [0%R] st
  = Ok [(3 * 1 + 0 * (1 / log2 3) + 1 * (1 / log2 4) + 7 * (1 / log2 5))%R] st.
Proof.
  pose proof (initialised_discount_length lg) as Hd. fold st in Hd.
  assert (D0 : nth 0 discount_table 0%R = 1%R) by apply discount_table_0.
  assert (D1 : nth 1 discount_table 0%R = (1 / log2 3)%R).
  { rewrite discount_table_small by lia. do 2 f_equal. simpl. lra. }
  assert (D2 : nth 2 discount_table 0%R = (1 / log2 4)%R).
  { rewrite discount_table_small by lia. do 2 f_equal. simpl. lra. }
  assert (D3 : nth 3 discount_table 0%R = (1 / log2 5)%R).
  { rewrite discount_table_small by lia. do 2 f_equal. simpl. lra. }
  split; [|split].
  - unfold label, ones.
    rewrite CalMaxDCGAtK_value; try (cbn [length]; lia).
    apply (f_equal (fun x : R => Ok x st)).
    change (Z.to_nat (Z.min 4 4)) with 4%nat. change (Z.to_nat 4) with 4%nat.
    rewrite worked_gains, worked_sort.
    unfold partial_dcg; cbn [sum_upto discount_ st initialised].
    rewrite D0, D1, D2, D3. cbn [nth]. lra.
  - unfold label, ones.
    rewrite CalMaxDCG_value; try (cbn [length]; lia);
      [|repeat constructor; lia].
    rewrite one_pass_single by lia.
    apply (f_equal (fun x : list R => Ok x st)).
    change (Z.to_nat (if 4 >? 4 then 4 else 4)) with 4%nat.
    change (Z.to_nat 4) with 4%nat.
    rewrite worked_gains, worked_sort.
    cbn [sum_upto discount_ st initialised length skipn app].
    rewrite D0, D1, D2, D3. cbn [nth]. f_equal. lra.
  - unfold label, ones, score.
    rewrite CalDCG_value; try (cbn [length]; lia);
      [|repeat constructor; lia].
    rewrite one_pass_single by lia.
    apply (f_equal (fun x : list R => Ok x st)).
    change (Z.to_nat (if 4 >? 4 then 4 else 4)) with 4%nat.
    change (Z.to_nat 4) with 4%nat.
    rewrite worked_order.
    cbn [sum_upto discount_ st initialised length skipn app nth].
    rewrite D0, D1, D2, D3.
    change (Z.to_nat 0) with 0%nat. change (Z.to_nat 1) with 1%nat.
    change (Z.to_nat 2) with 2%nat. change (Z.to_nat 3) with 3%nat.
    pose proof worked_gains as G. unfold gains_of in G. cbn [seq map] in G.
    injection G as G0 G1 G2 G3. rewrite G0, G1, G2, G3.
    f_equal. lra.
Qed.

Lemma log2_4 : log2 4 = 2%R.
Proof.
  unfold log2. replace 4%R with (2 * 2)%R by lra.
  rewrite ln_mult by lra. pose proof ln_2_pos. field. lra.
Qed.

(** The observed value of the worked example is strictly below the ideal
    one. *)
Lemma worked_example_strict :
  (3 * 1 + 0 * (1 / log2 3) + 1 * (1 / log2 4) + 7 * (1 / log2 5)
   < 7 * 1 + 3 * (1 / log2 3) + 1 * (1 / log2 4) + 0 * (1 / log2 5))%R.
Proof.
  pose proof (log2_ge_1 3 ltac:(lra)) as H3.
  pose proof (log2_increasing 4 5 ltac:(lra) ltac:(lra)) as H5.
  rewrite log2_4 in H5.
  assert (0 < 1 / log2 3)%R by (apply Rdiv_lt_0_compat; lra).
  assert (1 / log2 5 <= 1 / 2)%R.
  { apply (Rmult_le_reg_r (log2 5)); [lra|].
    unfold Rdiv. rewrite Rmult_assoc, Rinv_l by lra. lra. }
  lra.
Qed.

(** * Further properties of the calculator *)

(** ** DefaultEvalAt and DefaultLabelGain *)

(** The validation loop of DefaultEvalAt: it passes over the vector
    without changing it, or stops at an entry that is not positive. *)
Lemma eval_at_loop (v : list Z) st :
  forall n j,
    0 <= j -> j + Z.of_nat n <= Z.of_nat (length v) ->
    (iterate (fun i v => x <- read v i ;;
                         if x >? 0 then ret v else raise (Fatal CheckFailed))
             j n v st = Ok v st /\
     forall i, j <= i < j + Z.of_nat n -> 0 < nth (Z.to_nat i) v 0)
    \/ (iterate (fun i v => x <- read v i ;;
                            if x >? 0 then ret v else raise (Fatal CheckFailed))
                j n v st = Err (Fatal CheckFailed) /\
        exists i, j <= i < j + Z.of_nat n /\ nth (Z.to_nat i) v 0 <= 0).
Proof.
  set (body := fun (i : Z) (v : list Z) =>
                 x <- read v i ;;
                 if x >? 0 then ret v else raise (Fatal CheckFailed)).
  induction n as [|n IH]; intros j Hj Hlen.
  - left; split; [reflexivity|]. intros i Hi; lia.
  - assert (Hbody : body j v st
                    = if nth (Z.to_nat j) v 0 >? 0 then Ok v st
                      else Err (Fatal CheckFailed)).
    { unfold body.
      rewrite (bind_Ok _ _ _ _ _ (read_nth v j 0 st ltac:(lia))).
      destruct (_ >? 0); reflexivity. }
    cbn [iterate].
    destruct (Z.gtb_spec (nth (Z.to_nat j) v 0) 0) as [Hpos|Hneg].
    + rewrite (bind_Ok _ _ _ _ _ Hbody).
      destruct (IH (j + 1) ltac:(lia) ltac:(lia))
        as [(E & Hall) | (E & i & Hi & Hbad)].
      * left; split; [exact E|].
        intros i Hi. destruct (Z.eq_dec i j) as [->|]; [lia|].
        apply Hall; lia.
      * right; split; [exact E|]. exists i; split; [lia|exact Hbad].
    + rewrite (bind_Err _ _ _ _ Hbody).
      right; split; [reflexivity|]. exists j; split; [lia|exact Hneg].
Qed.

Lemma DefaultEvalAt_cases (eval_at : list Z) st :
  eval_at <> [] ->
  (DefaultEvalAt eval_at st = Ok eval_at st /\ Forall (fun k => 0 < k) eval_at)
  \/ (DefaultEvalAt eval_at st = Err (Fatal CheckFailed) /\
      Exists (fun k => k <= 0) eval_at).
Proof.
  intros Hne.
  assert (E : DefaultEvalAt eval_at st
              = for_loop 0 (Z.of_nat (length eval_at))
                  (fun i v => x <- read v i ;;
                              if x >? 0 then ret v
                              else raise (Fatal CheckFailed))
                  eval_at st)
    by (destruct eval_at; [congruence|reflexivity]).
  rewrite E. unfold for_loop.
  destruct (eval_at_loop eval_at st
              (Z.to_nat (Z.of_nat (length eval_at) - 0)) 0)
    as [(Eok & Hall) | (Eerr & i & Hi & Hbad)]; try lia.
  - left; split; [exact Eok|].
    rewrite Forall_forall. intros k Hk.
    destruct (In_nth eval_at k 0 Hk) as (n & Hn & <-).
    rewrite <- (Nat2Z.id n). apply Hall. lia.
  - right; split; [exact Eerr|].
    rewrite Exists_exists. exists (nth (Z.to_nat i) eval_at 0).
    split; [apply nth_In; lia|exact Hbad].
Qed.

(** X1: DefaultEvalAt fills an empty cutoff vector with 1, 2, 3, 4, 5;
    a non-empty vector is returned unchanged when all its entries are
    positive, and the call fails fatally as soon as one entry is zero or
    negative. *)
Theorem DefaultEvalAt_validates (eval_at : list Z) (st : statics) :
  (eval_at = [] -> DefaultEvalAt eval_at st = Ok [1; 2; 3; 4; 5] st) /\
  (eval_at <> [] -> Forall (fun k => 0 < k) eval_at ->
   DefaultEvalAt eval_at st = Ok eval_at st) /\
  (Exists (fun k => k <= 0) eval_at ->
   DefaultEvalAt eval_at st = Err (Fatal CheckFailed)).
Proof.
  split; [intros ->; reflexivity|]. split.
  - intros Hne Hpos.
    destruct (DefaultEvalAt_cases eval_at st Hne) as [(E & _) | (_ & Hex)];
      [exact E|].
    rewrite Exists_exists in Hex. destruct Hex as (k & Hk & Hbad).
    rewrite Forall_forall in Hpos. specialize (Hpos k Hk). lia.
  - intros Hex.
    assert (Hne : eval_at <> []) by (intros ->; inversion Hex).
    destruct (DefaultEvalAt_cases eval_at st Hne) as [(_ & Hpos) | (E & _)];
      [|exact E].
    rewrite Exists_exists in Hex. destruct Hex as (k & Hk & Hbad).
    rewrite Forall_forall in Hpos. specialize (Hpos k Hk). lia.
Qed.

(** Whatever DefaultEvalAt returns is a non-empty list of positive
    cutoffs. *)
Lemma DefaultEvalAt_positive eval_at st r st' :
  DefaultEvalAt eval_at st = Ok r st' ->
  st' = st /\ r <> [] /\ Forall (fun k => 0 < k) r.
Proof.
  destruct eval_at as [|k0 rest] eqn:Ev.
  - intros H; injection H as <- <-.
    split; [reflexivity|]. split; [discriminate|].
    repeat constructor.
  - rewrite <- Ev in *.
    assert (Hne : eval_at <> []) by (rewrite Ev; discriminate).
    destruct (DefaultEvalAt_cases eval_at st Hne) as [(E & Hpos) | (E & _)];
      rewrite E; intros H; [|discriminate].
    injection H as <- <-. auto.
Qed.

(** X2: DefaultLabelGain never fails and always returns a non-empty table:
    a non-empty argument unchanged, and for the empty argument the 31
    gains 2^i - 1, i = 0 .. 30, each computed in [int] without overflow.
    Applying it to its own result changes nothing. *)
Theorem DefaultLabelGain_table (label_gain : list double) (st : statics) :
  exists table,
    DefaultLabelGain label_gain st = Ok table st /\
    table <> [] /\
    DefaultLabelGain table st = Ok table st /\
    (label_gain <> [] -> table = label_gain) /\
    (label_gain = [] ->
     length table = 31%nat /\
     forall i, 0 <= i <= 30 -> nth (Z.to_nat i) table 0%R = IZR (2 ^ i - 1)).
Proof.
  destruct label_gain as [|g rest].
  - eexists. split; [apply DefaultLabelGain_default|].
    split; [discriminate|]. split; [reflexivity|].
    split; [congruence|]. intros _. split; [reflexivity|].
    intros i Hi.
    rewrite (nth_indep _ 0%R (IZR (2 ^ Z.of_nat 0 - 1)))
      by (rewrite length_map, length_seq; lia).
    rewrite (map_nth (fun i => IZR (2 ^ Z.of_nat i - 1))).
    rewrite seq_nth by lia. cbn [Nat.add]. now rewrite Z2Nat.id by lia.
  - exists (g :: rest). repeat split; try reflexivity; discriminate.
Qed.

(** ** GainModel *)


(** X3: with theta1 = theta2 = 1 the weighted gain is the classical
    exponential gain 2^l - 1 for every label from 0 to 30, that is, the
    entry of the default label-gain table at that label. *)
Theorem CalGain_unit_thetas (l : Z) (st : statics) (Hl : 0 <= l <= 30) :
  CalGain l 1 1 = IZR (2 ^ l - 1) /\
  exists table,
    DefaultLabelGain [] st = Ok table st /\
    nth (Z.to_nat l) table 0%R = CalGain l 1 1.
Proof.
  assert (E : CalGain l 1 1 = IZR (2 ^ l - 1)).
  { unfold CalGain.
    destruct (Z.eqb_spec l 0) as [->|]; [reflexivity|].
    destruct (Z.eqb_spec l 1) as [->|]; [simpl; lra|].
    destruct (Z.eqb_spec l 2) as [->|]; [simpl; lra|].
    now rewrite shift_gain_exact by lia. }
  split; [exact E|].
  eexists. split; [apply DefaultLabelGain_default|].
  rewrite E.
  rewrite (nth_indep _ 0%R (IZR (2 ^ Z.of_nat 0 - 1)))
    by (rewrite length_map, length_seq; lia).
  rewrite (map_nth (fun i => IZR (2 ^ Z.of_nat i - 1))).
  rewrite seq_nth by lia. cbn [Nat.add]. now rewrite Z2Nat.id by lia.
Qed.

Lemma CalGain_unit_thetas_witness :
  CalGain 2 1 1 = IZR (2 ^ 2 - 1) /\
  exists table,
    DefaultLabelGain [] uninitialised = Ok table uninitialised /\
    nth (Z.to_nat 2) table 0%R = CalGain 2 1 1.
Proof. apply (CalGain_unit_thetas 2 uninitialised); lia. Defined.

(** X4: when theta1 and theta2 are probabilities (in (0, 1]) the weighted
    gain of a label from 0 to 30 is at least the classical gain 2^l - 1,
    hence never negative. *)
Theorem CalGain_at_least_classical (l : Z) (th1 th2 : double)
    (Hl : 0 <= l <= 30)
    (H1 : (0 < th1 <= 1)%R) (H2 : (0 < th2 <= 1)%R) :
  (0 <= IZR (2 ^ l - 1) <= CalGain l th1 th2)%R.
Proof.
  assert (Hpow : 1 <= 2 ^ l) by (apply (Z.pow_le_mono_r 2 0 l); lia).
  split; [apply IZR_le; lia|].
  assert (Hi1 : (1 <= / th1)%R).
  { rewrite <- Rinv_1. apply Rinv_le_contravar; lra. }
  assert (Hi2 : (1 <= / th2)%R).
  { rewrite <- Rinv_1. apply Rinv_le_contravar; lra. }
  unfold CalGain.
  destruct (Z.eqb_spec l 0) as [->|]; [simpl; lra|].
  destruct (Z.eqb_spec l 1) as [->|].
  { simpl. unfold Rdiv. lra. }
  destruct (Z.eqb_spec l 2) as [->|].
  { simpl. unfold Rdiv. rewrite Rinv_mult. nra. }
  rewrite shift_gain_exact by lia. lra.
Qed.

Lemma CalGain_at_least_classical_witness :
  (0 <= IZR (2 ^ 2 - 1) <= CalGain 2 (1 / 2) (1 / 4))%R.
Proof. apply CalGain_at_least_classical; [lia|lra|lra]. Defined.



(** ** Init and the static members *)

(** X6: Init never fails and its result does not depend on what the
    static vectors held before: label_gain_ becomes exactly the argument
    (also when the old vector was longer or shorter), and a second Init
    with the same argument changes nothing. *)
Theorem Init_overwrites (input_label_gain : list double) (st st2 : statics) :
  exists st',
    Init input_label_gain st = Ok tt st' /\
    label_gain_ st' = input_label_gain /\
    Init input_label_gain st2 = Ok tt st' /\
    Init input_label_gain st' = Ok tt st'.
Proof.
  exists (initialised input_label_gain).
  repeat split; try apply Init_result.
Qed.

(** X7: after Init every entry of the discount table lies in (0, 1]. *)
Theorem Init_discount_in_unit_interval
    (input_label_gain : list double) (st : statics) :
  exists st',
    Init input_label_gain st = Ok tt st' /\
    forall i d, nth_error (discount_ st') i = Some d -> (0 < d <= 1)%R.
Proof.
  exists (initialised input_label_gain). split; [apply Init_result|].
  cbn [discount_ initialised]. intros i d Hd.
  assert (Hi : (i < length discount_table)%nat)
    by (apply nth_error_Some; congruence).
  apply (nth_error_nth _ _ 0%R) in Hd. subst d.
  rewrite discount_table_nth_nat by assumption.
  assert (Hpos : (0 <= IZR (Z.of_nat i))%R) by (apply IZR_le; lia).
  pose proof (log2_ge_1 (2 + IZR (Z.of_nat i)) ltac:(lra)) as Hlog.
  split; [apply Rdiv_lt_0_compat; lra|].
  apply (Rmult_le_reg_r (log2 (2 + IZR (Z.of_nat i)))); [lra|].
  unfold Rdiv. rewrite Rmult_assoc, Rinv_l by lra. lra.
Qed.

(** X8: before Init the label-gain table is empty and CheckLabel rejects
    every non-empty label array, whatever the labels and the tolerance. *)
Theorem CheckLabel_before_Init (kEpsilon : double) (label : list label_t)
    (num_data : data_size_t) (st : statics)
    (Hempty : label_gain_ st = [])
    (Hn : 1 <= num_data)
    (Hlen : num_data <= Z.of_nat (length label)) :
  exists why, CheckLabel kEpsilon label num_data st = Err (Fatal why).
Proof.
  unfold CheckLabel. rewrite for_loop_step by lia.
  assert (H0 : 0 <= 0 < Z.of_nat (length label)) by lia.
  destruct (CheckLabel_body kEpsilon label 0 st H0) as [Hbad _].
  destruct Hbad as (why & E).
  - unfold invalid_label. rewrite Hempty. cbn [length INR].
    match goal with
    | |- _ \/ (?x < 0)%R \/ _ =>
        destruct (Rlt_dec x 0);
          [right; left; assumption|right; right; lra]
    end.
  - exists why. apply bind_Err. exact E.
Qed.

Lemma CheckLabel_before_Init_witness :
  exists why, CheckLabel 1e-15 [0; 1]%R 2 uninitialised = Err (Fatal why).
Proof.
  apply CheckLabel_before_Init; [reflexivity|lia|simpl; lia].
Defined.

Lemma CalMaxDCGAtK_beyond_table k label theta1 theta2 num_data st :
  0 <= k ->
  k <= Z.of_nat (length label) ->
  k <= Z.of_nat (length theta1) ->
  k <= Z.of_nat (length theta2) ->
  Z.of_nat (length (discount_ st)) < k ->
  Z.of_nat (length (discount_ st)) < num_data ->
  CalMaxDCGAtK k label theta1 theta2 num_data st = Err OutOfRange.
Proof.
  intros Hk Hl H1 H2 Hdk Hdn. unfold CalMaxDCGAtK.
  rewrite bind_assoc.
  rewrite (bind_Ok _ _ _ _ _ (gains_loop label theta1 theta2 k st Hk Hl H1 H2)).
  cbv zeta. fold (sort_desc (gains_of label theta1 theta2 (Z.to_nat k))).
  set (gains := sort_desc (gains_of label theta1 theta2 (Z.to_nat k))).
  assert (Hg : Z.of_nat (length gains) = k)
    by (unfold gains; rewrite sort_desc_length, gains_of_length; lia).
  apply (accumulate_then_fail
           (fun j => (nth j (discount_ st) 0 * nth j gains 0)%R)
           _ (Z.of_nat (length (discount_ st)))).
  - destruct (Z.gtb_spec k num_data); lia.
  - intros j a Hj.
    unfold bind at 1, get_discount at 1.
    rewrite (bind_Ok _ _ _ _ _ (read_nth (discount_ st) j 0%R st ltac:(lia))).
    rewrite (bind_Ok _ _ _ _ _ (read_nth gains j 0%R st ltac:(lia))).
    reflexivity.
  - intros a. unfold bind at 1, get_discount at 1.
    apply bind_Err, read_OutOfRange. right; lia.
Qed.

(** X9: before Init the discount table is empty, and evaluating at least
    one item at a cutoff of at least 1 reads discount_[0] out of range, in
    each of CalMaxDCGAtK, CalMaxDCG and CalDCG. *)
Theorem engines_before_Init (k n : data_size_t) (ks : list data_size_t)
    (label : list label_t) (score theta1 theta2 out : list double)
    (st : statics)
    (Hempty : discount_ st = [])
    (Hlabel : Z.of_nat (length label) = n)
    (Hscore : Z.of_nat (length score) = n)
    (Htheta1 : Z.of_nat (length theta1) = n)
    (Htheta2 : Z.of_nat (length theta2) = n)
    (Hn : 1 <= n)
    (Hk : 1 <= k) :
  (k <= n -> CalMaxDCGAtK k label theta1 theta2 n st = Err OutOfRange) /\
  CalMaxDCG (k :: ks) label theta1 theta2 n out st = Err OutOfRange /\
  CalDCG (k :: ks) label score theta1 theta2 n out st = Err OutOfRange.
Proof.
  assert (Hd : Z.of_nat (length (discount_ st)) = 0)
    by (rewrite Hempty; reflexivity).
  split; [|split].
  - intros Hkn. apply CalMaxDCGAtK_beyond_table; lia.
  - apply CalMaxDCG_beyond_table; lia.
  - apply CalDCG_beyond_table; lia.
Qed.

Lemma engines_before_Init_witness :
  (1 <= 1 ->
   CalMaxDCGAtK 1 [3]%R [1]%R [1]%R 1 uninitialised = Err OutOfRange) /\
  CalMaxDCG [1] [3]%R [1]%R [1]%R 1 [0%R] uninitialised = Err OutOfRange /\
  CalDCG [1] [3]%R [5]%R [1]%R [1]%R 1 [0%R] uninitialised = Err OutOfRange.
Proof.
  apply (engines_before_Init 1 1 [] [3]%R [5]%R [1]%R [1]%R [0%R]
           uninitialised); try reflexivity; lia.
Defined.

(** ** IdealDCGEngine *)

(** X10: when the cutoff equals the item count, CalMaxDCGAtK sees every
    item: it returns the specified ideal DCG, the value CalMaxDCG writes
    for the cutoff list [n]. *)
Theorem CalMaxDCGAtK_at_item_count (n : data_size_t) (label : list label_t)
    (theta1 theta2 out : list double) (st : statics)
    (Hlabel : Z.of_nat (length label) = n)
    (Htheta1 : Z.of_nat (length theta1) = n)
    (Htheta2 : Z.of_nat (length theta2) = n)
    (Hdisc : n <= Z.of_nat (length (discount_ st)))
    (Hout : length out = 1%nat) :
  CalMaxDCGAtK n label theta1 theta2 n st
  = Ok (MaxDCGAtK_spec (discount_ st) n label theta1 theta2 n) st /\
  CalMaxDCG [n] label theta1 theta2 n out st
  = Ok [MaxDCGAtK_spec (discount_ st) n label theta1 theta2 n] st.
Proof.
  assert (Hn : 0 <= n) by lia.
  split.
  - rewrite CalMaxDCGAtK_value by lia.
    unfold MaxDCGAtK_spec. cbv zeta.
    destruct (Z.gtb_spec n n); [lia|]. now rewrite Z.min_id.
  - rewrite CalMaxDCG_value; try lia;
      [|repeat constructor; lia|simpl; lia].
    rewrite one_pass_single by lia.
    rewrite skipn_all2 by (simpl; lia). reflexivity.
Qed.

Lemma CalMaxDCGAtK_at_item_count_witness :
  CalMaxDCGAtK 2 [0; 3]%R [1; 1]%R [1; 1]%R 2 (initialised [])
  = Ok (MaxDCGAtK_spec (discount_ (initialised [])) 2
          [0; 3]%R [1; 1]%R [1; 1]%R 2) (initialised []) /\
  CalMaxDCG [2] [0; 3]%R [1; 1]%R [1; 1]%R 2 [0%R] (initialised [])
  = Ok [MaxDCGAtK_spec (discount_ (initialised [])) 2
          [0; 3]%R [1; 1]%R [1; 1]%R 2] (initialised []).
Proof.
  apply CalMaxDCGAtK_at_item_count; try reflexivity.
  pose proof (initialised_discount_length []). lia.
Defined.

(** X11: on an ascending list of non-negative cutoffs CalMaxDCG writes,
    at position i of [out], the specified ideal DCG at cutoff ks[i], and
    leaves the entries of [out] beyond the cutoffs as they were. *)
Theorem CalMaxDCG_ascending_cutoffs (ks : list data_size_t)
    (n : data_size_t) (label : list label_t)
    (theta1 theta2 out : list double) (st : statics)
    (Hlabel : Z.of_nat (length label) = n)
    (Htheta1 : Z.of_nat (length theta1) = n)
    (Htheta2 : Z.of_nat (length theta2) = n)
    (Hdisc : n <= Z.of_nat (length (discount_ st)))
    (Hpos : Forall (fun k => 0 <= k) ks)
    (Hasc : StronglySorted Z.le ks)
    (Hout : (length ks <= length out)%nat) :
  CalMaxDCG ks label theta1 theta2 n out st
  = Ok (map (fun k => MaxDCGAtK_spec (discount_ st) k label theta1 theta2 n)
            ks
        ++ skipn (length ks) out) st.
Proof.
  rewrite CalMaxDCG_value; try lia; try assumption.
  set (term := fun j => (nth j (discount_ st) 0
                         * nth j (sort_desc (gains_of label theta1 theta2
                                               (Z.to_nat n))) 0)%R).
  change (one_pass term n ks 0%R 0)
    with (one_pass term n ks (sum_upto term (Z.to_nat 0)) 0).
  rewrite one_pass_ascending; [reflexivity|lia|assumption|assumption].
Qed.

Lemma CalMaxDCG_ascending_cutoffs_witness :
  CalMaxDCG [1; 2] [0; 3]%R [1; 1]%R [1; 1]%R 2 [0; 0; 9]%R (initialised [])
  = Ok (map (fun k => MaxDCGAtK_spec (discount_ (initialised [])) k
                        [0; 3]%R [1; 1]%R [1; 1]%R 2) [1; 2]
        ++ skipn (length [1; 2]) [0; 0; 9]%R) (initialised []).
Proof.
  apply CalMaxDCG_ascending_cutoffs; try reflexivity.
  - pose proof (initialised_discount_length []). lia.
  - repeat constructor; lia.
  - repeat constructor; lia.
  - simpl; lia.
Defined.

(** X12: the loop over the cutoffs does not go back.  When the second
    cutoff is not larger than the first, CalMaxDCG and CalDCG both write
    the value of the first cutoff a second time. *)
Theorem descending_cutoff_repeats (k1 k2 n : data_size_t)
    (label : list label_t) (score theta1 theta2 out : list double)
    (st : statics)
    (Hlabel : Z.of_nat (length label) = n)
    (Hscore : Z.of_nat (length score) = n)
    (Htheta1 : Z.of_nat (length theta1) = n)
    (Htheta2 : Z.of_nat (length theta2) = n)
    (Hdisc : n <= Z.of_nat (length (discount_ st)))
    (Hk : 0 <= k2 <= k1)
    (Hout : length out = 2%nat) :
  (exists v, CalMaxDCG [k1; k2] label theta1 theta2 n out st = Ok [v; v] st /\
             CalMaxDCG [k1] label theta1 theta2 n [0%R] st = Ok [v] st) /\
  (exists v, CalDCG [k1; k2] label score theta1 theta2 n out st
             = Ok [v; v] st /\
             CalDCG [k1] label score theta1 theta2 n [0%R] st = Ok [v] st).
Proof.
  assert (Hn : 0 <= n) by lia.
  assert (Hrepeat : forall term,
            one_pass term n [k1; k2] 0%R 0
            = one_pass term n [k1] 0%R 0 ++ one_pass term n [k1] 0%R 0).
  { intros term. cbn [one_pass app].
    destruct (Z.gtb_spec k1 n), (Z.gtb_spec k2 n); f_equal; f_equal;
      match goal with |- (if ?a <? ?b then _ else _) = _ =>
        destruct (Z.ltb_spec a b); [lia|reflexivity] end. }
  split; eexists; split.
  - rewrite CalMaxDCG_value; try lia;
      [|repeat constructor; lia|simpl; lia].
    rewrite skipn_all2 by (simpl; lia).
    rewrite app_nil_r, Hrepeat, one_pass_single by lia. reflexivity.
  - rewrite CalMaxDCG_value; try lia;
      [|repeat constructor; lia|simpl; lia].
    rewrite one_pass_single by lia. reflexivity.
  - rewrite CalDCG_value; try lia;
      [|repeat constructor; lia|simpl; lia].
    rewrite skipn_all2 by (simpl; lia).
    rewrite app_nil_r, Hrepeat, one_pass_single by lia. reflexivity.
  - rewrite CalDCG_value; try lia;
      [|repeat constructor; lia|simpl; lia].
    rewrite one_pass_single by lia. reflexivity.
Qed.

Lemma descending_cutoff_repeats_witness :
  (exists v,
     CalMaxDCG [2; 1] [0; 3]%R [1; 1]%R [1; 1]%R 2 [0; 0]%R (initialised [])
     = Ok [v; v] (initialised []) /\
     CalMaxDCG [2] [0; 3]%R [1; 1]%R [1; 1]%R 2 [0%R] (initialised [])
     = Ok [v] (initialised [])) /\
  (exists v,
     CalDCG [2; 1] [0; 3]%R [0; 1]%R [1; 1]%R [1; 1]%R 2 [0; 0]%R
       (initialised [])
     = Ok [v; v] (initialised []) /\
     CalDCG [2] [0; 3]%R [0; 1]%R [1; 1]%R [1; 1]%R 2 [0%R] (initialised [])
     = Ok [v] (initialised [])).
Proof.
  apply descending_cutoff_repeats; try reflexivity; try lia.
  pose proof (initialised_discount_length []). lia.
Defined.

Lemma one_pass_ext term term' num_data :
  0 <= num_data ->
  (forall j, (j < Z.to_nat num_data)%nat -> term j = term' j) ->
  forall ks cr cl,
    cl <= num_data ->
    one_pass term num_data ks cr cl = one_pass term' num_data ks cr cl.
Proof.
  intros Hn Hext. induction ks as [|k ks IH]; intros cr cl Hcl; [reflexivity|].
  cbn [one_pass].
  set (cur_k := if k >? num_data then num_data else k).
  assert (Hck : cur_k <= num_data)
    by (unfold cur_k; destruct (Z.gtb_spec k num_data); lia).
  assert (Hsum : forall m, m <= num_data ->
            sum_upto term (Z.to_nat m) = sum_upto term' (Z.to_nat m)).
  { intros m Hm. apply sum_upto_ext. intros j Hj. apply Hext. lia. }
  rewrite (Hsum cur_k Hck), (Hsum cl Hcl).
  f_equal. now apply IH.
Qed.

(** X13: for any list of non-negative cutoffs, CalMaxDCG and CalDCG
    keep the size of [out] and change only its first |ks| entries. *)
Theorem out_beyond_cutoffs_untouched (ks : list data_size_t)
    (n : data_size_t) (label : list label_t)
    (score theta1 theta2 out : list double) (st : statics)
    (Hlabel : Z.of_nat (length label) = n)
    (Hscore : Z.of_nat (length score) = n)
    (Htheta1 : Z.of_nat (length theta1) = n)
    (Htheta2 : Z.of_nat (length theta2) = n)
    (Hdisc : n <= Z.of_nat (length (discount_ st)))
    (Hpos : Forall (fun k => 0 <= k) ks)
    (Hout : (length ks <= length out)%nat) :
  (exists r, CalMaxDCG ks label theta1 theta2 n out st = Ok r st /\
             length r = length out /\
             skipn (length ks) r = skipn (length ks) out) /\
  (exists r, CalDCG ks label score theta1 theta2 n out st = Ok r st /\
             length r = length out /\
             skipn (length ks) r = skipn (length ks) out).
Proof.
  assert (Hframe : forall a : list R,
            length a = length ks ->
            length (a ++ skipn (length ks) out) = length out /\
            skipn (length ks) (a ++ skipn (length ks) out)
            = skipn (length ks) out).
  { intros a Ha. split.
    - rewrite length_app, length_skipn. lia.
    - rewrite skipn_app, <- Ha, skipn_all, Nat.sub_diag. reflexivity. }
  split; eexists; split.
  - apply CalMaxDCG_value; try lia; assumption.
  - apply Hframe, one_pass_length.
  - apply CalDCG_value; try lia; assumption.
  - apply Hframe, one_pass_length.
Qed.

Lemma out_beyond_cutoffs_untouched_witness :
  (exists r,
     CalMaxDCG [1] [0; 3]%R [1; 1]%R [1; 1]%R 2 [5; 6]%R (initialised [])
     = Ok r (initialised []) /\
     length r = length [5; 6]%R /\
     skipn (length [1]) r = skipn (length [1]) [5; 6]%R) /\
  (exists r,
     CalDCG [1] [0; 3]%R [0; 1]%R [1; 1]%R [1; 1]%R 2 [5; 6]%R
       (initialised [])
     = Ok r (initialised []) /\
     length r = length [5; 6]%R /\
     skipn (length [1]) r = skipn (length [1]) [5; 6]%R).
Proof.
  apply out_beyond_cutoffs_untouched; try reflexivity.
  - pose proof (initialised_discount_length []). lia.
  - repeat constructor; lia.
  - simpl; lia.
Defined.

(** ** The two engines together *)




(** ** The ideal DCG and the order of the items *)

Lemma map_nth_seq (l : list nat) d :
  map (fun i => nth i l d) (seq 0 (length l)) = l.
Proof.
  induction l as [|x l IH]; [reflexivity|].
  change (seq 0 (length (x :: l))) with (O :: seq 1 (length l)).
  rewrite <- seq_shift, map_cons, map_map.
  change (nth O (x :: l) d) with x. f_equal. exact IH.
Qed.

Lemma reorder_length sigma a : length (reorder sigma a) = length sigma.
Proof. unfold reorder. apply length_map. Qed.

Lemma reorder_nth sigma a i :
  (i < length sigma)%nat ->
  nth i (reorder sigma a) 0%R = nth (nth i sigma O) a 0%R.
Proof.
  intros Hi. unfold reorder.
  rewrite (nth_indep _ 0%R (nth O a 0%R)) by (rewrite length_map; exact Hi).
  apply (map_nth (fun i => nth i a 0%R)).
Qed.

Lemma gains_of_reorder sigma label theta1 theta2 :
  gains_of (reorder sigma label) (reorder sigma theta1) (reorder sigma theta2)
           (length sigma)
  = map (item_gain label theta1 theta2) sigma.
Proof.
  unfold gains_of.
  transitivity (map (item_gain label theta1 theta2)
                    (map (fun i => nth i sigma O) (seq 0 (length sigma))));
    [|now rewrite map_nth_seq].
  rewrite map_map.
  apply map_ext_in. intros i Hi. apply in_seq in Hi.
  unfold item_gain. now rewrite !reorder_nth by lia.
Qed.

Lemma sort_desc_perm_eq l l' :
  Permutation l l' -> sort_desc l = sort_desc l'.
Proof.
  intros HP. unfold sort_desc. f_equal. symmetry.
  apply sort_asc_unique; [|apply sort_asc_sorted].
  rewrite HP. apply sort_asc_perm.
Qed.

(** X15: the ideal DCG depends on the items only as a collection:
    presenting the same items in another order (labels and thetas
    reordered together) leaves every value CalMaxDCG writes unchanged. *)
Theorem CalMaxDCG_permutation_invariant (sigma : list nat)
    (ks : list data_size_t) (n : data_size_t) (label : list label_t)
    (theta1 theta2 out : list double) (st : statics)
    (Hsigma : Permutation sigma (seq 0 (Z.to_nat n)))
    (Hlabel : Z.of_nat (length label) = n)
    (Htheta1 : Z.of_nat (length theta1) = n)
    (Htheta2 : Z.of_nat (length theta2) = n)
    (Hdisc : n <= Z.of_nat (length (discount_ st)))
    (Hpos : Forall (fun k => 0 <= k) ks)
    (Hout : (length ks <= length out)%nat) :
  CalMaxDCG ks (reorder sigma label) (reorder sigma theta1)
            (reorder sigma theta2) n out st
  = CalMaxDCG ks label theta1 theta2 n out st.
Proof.
  assert (Hlen : length sigma = Z.to_nat n).
  { rewrite (Permutation_length Hsigma). apply length_seq. }
  rewrite !CalMaxDCG_value;
    rewrite ?reorder_length; try lia; try assumption.
  replace (gains_of (reorder sigma label) (reorder sigma theta1)
                    (reorder sigma theta2) (Z.to_nat n))
    with (map (item_gain label theta1 theta2) sigma)
    by (rewrite <- Hlen; symmetry; apply gains_of_reorder).
  rewrite (sort_desc_perm_eq (map (item_gain label theta1 theta2) sigma)
             (gains_of label theta1 theta2 (Z.to_nat n))); [reflexivity|].
  unfold gains_of. now apply Permutation_map.
Qed.

Lemma CalMaxDCG_permutation_invariant_witness :
  CalMaxDCG [1; 2] (reorder [1; 0]%nat [0; 3]%R) (reorder [1; 0]%nat [1; 2]%R)
            (reorder [1; 0]%nat [1; 1]%R) 2 [0; 0]%R (initialised [])
  = CalMaxDCG [1; 2] [0; 3]%R [1; 2]%R [1; 1]%R 2 [0; 0]%R (initialised []).
Proof.
  apply CalMaxDCG_permutation_invariant;
    [apply perm_swap|reflexivity|reflexivity|reflexivity| | |simpl; lia].
  - pose proof (initialised_discount_length []). lia.
  - repeat constructor; lia.
Defined.

(** ** Items without relevance, and growth with the cutoff *)

Lemma sum_upto_zero m : sum_upto (fun _ => 0%R) m = 0%R.
Proof. induction m as [|m IH]; simpl; [reflexivity|rewrite IH; lra]. Qed.

Lemma one_pass_zero num_data :
  forall ks cl,
    one_pass (fun _ => 0%R) num_data ks 0%R cl = map (fun _ => 0%R) ks.
Proof.
  induction ks as [|k ks IH]; intros cl; [reflexivity|].
  cbn [one_pass map]. rewrite !sum_upto_zero.
  replace (if cl <? (if k >? num_data then num_data else k)
           then (0 + (0 - 0))%R else 0%R) with 0%R
    by (destruct (_ <? _); lra).
  f_equal. apply IH.
Qed.

Lemma item_gain_zero_label label theta1 theta2 j :
  Forall (fun l => l = 0%R) label ->
  item_gain label theta1 theta2 j = 0%R.
Proof.
  intros Hz. unfold item_gain. unfold label_t, double in *.
  assert (E : nth j label 0%R = 0%R).
  { destruct (nth_in_or_default j label 0%R) as [Hin|Hd]; [|exact Hd].
    rewrite Forall_forall in Hz. now apply Hz. }
  rewrite E. rewrite (static_cast_int_IZR 0). reflexivity.
Qed.

Lemma nth_all_zero (l : list R) j :
  Forall (fun x => x = 0%R) l -> nth j l 0%R = 0%R.
Proof.
  intros Hz. destruct (nth_in_or_default j l 0%R) as [Hin|Hd]; [|exact Hd].
  rewrite Forall_forall in Hz. now apply Hz.
Qed.

(** X16: when every label is 0 the gains are 0 whatever the thetas (they
    are not even divided by), and CalMaxDCG and CalDCG write 0 for every
    cutoff, ascending or not. *)
Theorem all_labels_zero (ks : list data_size_t) (n : data_size_t)
    (label : list label_t) (score theta1 theta2 out : list double)
    (st : statics)
    (Hzero : Forall (fun l => l = 0%R) label)
    (Hlabel : Z.of_nat (length label) = n)
    (Hscore : Z.of_nat (length score) = n)
    (Htheta1 : Z.of_nat (length theta1) = n)
    (Htheta2 : Z.of_nat (length theta2) = n)
    (Hdisc : n <= Z.of_nat (length (discount_ st)))
    (Hpos : Forall (fun k => 0 <= k) ks)
    (Hout : (length ks <= length out)%nat) :
  CalMaxDCG ks label theta1 theta2 n out st
  = Ok (map (fun _ => 0%R) ks ++ skipn (length ks) out) st /\
  CalDCG ks label score theta1 theta2 n out st
  = Ok (map (fun _ => 0%R) ks ++ skipn (length ks) out) st.
Proof.
  assert (Hn : 0 <= n) by lia.
  split.
  - rewrite CalMaxDCG_value; try lia; try assumption.
    rewrite (one_pass_ext _ (fun _ => 0%R)), one_pass_zero; try lia;
      [reflexivity|].
    intros j _.
    rewrite (nth_all_zero
               (sort_desc (gains_of label theta1 theta2 (Z.to_nat n))));
      [lra|].
    rewrite Forall_forall. intros x Hx.
    apply (Permutation_in _ (Permutation_sym (sort_desc_perm _))) in Hx.
    unfold gains_of in Hx. apply in_map_iff in Hx.
    destruct Hx as (i & <- & _). now apply item_gain_zero_label.
  - rewrite CalDCG_value; try lia; try assumption.
    rewrite (one_pass_ext _ (fun _ => 0%R)), one_pass_zero; try lia;
      [reflexivity|].
    intros j _. rewrite item_gain_zero_label by assumption. lra.
Qed.

Lemma all_labels_zero_witness :
  CalMaxDCG [2; 1] [0; 0]%R [1; 0]%R [0; 1]%R 2 [7; 7; 7]%R (initialised [])
  = Ok (map (fun _ => 0%R) [2; 1] ++ skipn (length [2; 1]) [7; 7; 7]%R)
       (initialised []) /\
  CalDCG [2; 1] [0; 0]%R [4; 5]%R [1; 0]%R [0; 1]%R 2 [7; 7; 7]%R
    (initialised [])
  = Ok (map (fun _ => 0%R) [2; 1] ++ skipn (length [2; 1]) [7; 7; 7]%R)
       (initialised []).
Proof.
  apply all_labels_zero;
    [repeat constructor|reflexivity|reflexivity|reflexivity|reflexivity
    | | |simpl; lia].
  - pose proof (initialised_discount_length []). lia.
  - repeat constructor; lia.
Defined.

Lemma CalGain_nonneg z th1 th2 :
  0 <= z <= 30 -> (0 < th1)%R -> (0 < th2)%R ->
  (0 <= CalGain z th1 th2)%R.
Proof.
  intros Hz H1 H2. unfold CalGain.
  destruct (Z.eqb_spec z 0); [lra|].
  destruct (Z.eqb_spec z 1).
  { left. apply Rdiv_lt_0_compat; lra. }
  destruct (Z.eqb_spec z 2).
  { assert (0 < th1 * th2)%R by nra.
    assert (0 < 2 / (th1 * th2))%R by (apply Rdiv_lt_0_compat; lra).
    assert (0 < 1 / th1)%R by (apply Rdiv_lt_0_compat; lra).
    lra. }
  rewrite shift_gain_exact by lia.
  assert (1 <= 2 ^ z) by (apply (Z.pow_le_mono_r 2 0 z); lia).
  apply IZR_le. lia.
Qed.

Lemma sum_upto_mono (term : nat -> R) :
  (forall j, (0 <= term j)%R) ->
  forall a b, (a <= b)%nat -> (sum_upto term a <= sum_upto term b)%R.
Proof.
  intros Hterm a b Hab. induction Hab as [|b Hab IH]; [lra|].
  simpl. specialize (Hterm b). lra.
Qed.

Lemma sum_upto_nonneg (term : nat -> R) :
  (forall j, (0 <= term j)%R) -> forall m, (0 <= sum_upto term m)%R.
Proof.
  intros Hterm m.
  change 0%R with (sum_upto term O) at 1.
  apply sum_upto_mono; [assumption|lia].
Qed.

Lemma map_sorted (f : Z -> R) ks :
  (forall a b, a <= b -> (f a <= f b)%R) ->
  StronglySorted Z.le ks -> StronglySorted Rle (map f ks).
Proof.
  intros Hf. induction 1 as [|k ks Hs IH Hk]; simpl; constructor.
  - exact IH.
  - rewrite Forall_forall in *. intros y Hy.
    apply in_map_iff in Hy. destruct Hy as (k' & <- & Hk').
    apply Hf, Hk, Hk'.
Qed.

Lemma clamped_sum_mono (term : nat -> R) n :
  (forall j, (0 <= term j)%R) ->
  forall a b, a <= b ->
    (sum_upto term (Z.to_nat (if a >? n then n else a))
     <= sum_upto term (Z.to_nat (if b >? n then n else b)))%R.
Proof.
  intros Hterm a b Hab. apply sum_upto_mono; [assumption|].
  destruct (Z.gtb_spec a n), (Z.gtb_spec b n); lia.
Qed.

(** X17: when every item has an integer label from 0 to 30 and positive
    thetas, the values CalMaxDCG and CalDCG write for an ascending list of
    cutoffs are non-negative and never decrease along the list. *)
Theorem DCG_grows_with_cutoff (lg : list double) (st0 st : statics)
    (ks : list data_size_t) (n : data_size_t) (label : list label_t)
    (score theta1 theta2 out : list double)
    (Hinit : Init lg st0 = Ok tt st)
    (Hvalid : forall j, (j < Z.to_nat n)%nat ->
                exists z, nth j label 0%R = IZR z /\ 0 <= z <= 30 /\
                          (0 < nth j theta1 0)%R /\ (0 < nth j theta2 0)%R)
    (Hlabel : Z.of_nat (length label) = n)
    (Hscore : Z.of_nat (length score) = n)
    (Htheta1 : Z.of_nat (length theta1) = n)
    (Htheta2 : Z.of_nat (length theta2) = n)
    (Hn : n <= 10000)
    (Hpos : Forall (fun k => 0 <= k) ks)
    (Hasc : StronglySorted Z.le ks)
    (Hout : length out = length ks) :
  exists ideal observed,
    CalMaxDCG ks label theta1 theta2 n out st = Ok ideal st /\
    CalDCG ks label score theta1 theta2 n out st = Ok observed st /\
    StronglySorted Rle ideal /\ Forall (fun v => (0 <= v)%R) ideal /\
    StronglySorted Rle observed /\ Forall (fun v => (0 <= v)%R) observed.
Proof.
  apply Init_initialised in Hinit. subst st.
  pose proof (initialised_discount_length lg) as Hd.
  assert (Hn0 : 0 <= n) by lia.
  unfold data_size_t in *.
  assert (Hgain : forall j, (0 <= item_gain label theta1 theta2 j)%R).
  { intros j.
    destruct (Nat.lt_ge_cases j (Z.to_nat n)) as [Hj|Hj].
    - destruct (Hvalid j Hj) as (z & Hz0 & Hz & H1 & H2).
      rewrite (item_gain_IZR label theta1 theta2 j z Hz0).
      now apply CalGain_nonneg.
    - assert (Hov : nth j label 0%R = IZR 0).
      { apply nth_overflow. rewrite <- Hlabel, Nat2Z.id in Hj. exact Hj. }
      rewrite (item_gain_IZR label theta1 theta2 j 0 Hov).
      unfold CalGain; simpl. lra. }
  assert (Hsorted : forall j,
            (0 <= nth j (sort_desc (gains_of label theta1 theta2
                                      (Z.to_nat n))) 0)%R).
  { intros j.
    destruct (nth_in_or_default j
                (sort_desc (gains_of label theta1 theta2 (Z.to_nat n))) 0%R)
      as [Hin|Hdef]; [|apply Req_le; symmetry; exact Hdef].
    apply (Permutation_in _ (Permutation_sym (sort_desc_perm _))) in Hin.
    unfold gains_of in Hin. apply in_map_iff in Hin.
    destruct Hin as (i & Hi & _). unfold gains_of. rewrite <- Hi.
    apply Hgain. }
  set (ideal_term := fun j =>
         (nth j discount_table 0
          * nth j (sort_desc (gains_of label theta1 theta2 (Z.to_nat n))) 0)%R).
  set (observed_term := fun j =>
         (item_gain label theta1 theta2
            (Z.to_nat (nth j (score_order score (Z.to_nat n)) 0%Z))
          * nth j discount_table 0)%R).
  assert (Hideal : forall j, (0 <= ideal_term j)%R).
  { intros j. unfold ideal_term.
    apply Rmult_le_pos; [apply discount_table_nonneg|apply Hsorted]. }
  assert (Hobs : forall j, (0 <= observed_term j)%R).
  { intros j. unfold observed_term.
    apply Rmult_le_pos; [apply Hgain|apply discount_table_nonneg]. }
  exists (map (fun k => sum_upto ideal_term
                          (Z.to_nat (if k >? n then n else k))) ks),
         (map (fun k => sum_upto observed_term
                          (Z.to_nat (if k >? n then n else k))) ks).
  split; [|split; [|split; [|split; [|split]]]].
  - rewrite CalMaxDCG_value; try lia; try assumption.
    rewrite <- Hout, skipn_all, app_nil_r. cbn [discount_ initialised].
    fold ideal_term.
    change (one_pass ideal_term n ks 0%R 0)
      with (one_pass ideal_term n ks (sum_upto ideal_term (Z.to_nat 0)) 0).
    rewrite one_pass_ascending by (try lia; assumption). reflexivity.
  - rewrite CalDCG_value; try lia; try assumption.
    rewrite <- Hout, skipn_all, app_nil_r. cbn [discount_ initialised].
    fold observed_term.
    change (one_pass observed_term n ks 0%R 0)
      with (one_pass observed_term n ks
              (sum_upto observed_term (Z.to_nat 0)) 0).
    rewrite one_pass_ascending by (try lia; assumption). reflexivity.
  - apply map_sorted; [|assumption]. now apply clamped_sum_mono.
  - rewrite Forall_forall. intros v Hv. apply in_map_iff in Hv.
    destruct Hv as (k & <- & _). now apply sum_upto_nonneg.
  - apply map_sorted; [|assumption]. now apply clamped_sum_mono.
  - rewrite Forall_forall. intros v Hv. apply in_map_iff in Hv.
    destruct Hv as (k & <- & _). now apply sum_upto_nonneg.
Qed.

Lemma DCG_grows_with_cutoff_witness :
  exists ideal observed,
    CalMaxDCG [1; 2] [0; 3]%R [1; 1]%R [1; 1]%R 2 [0; 0]%R (initialised [])
    = Ok ideal (initialised []) /\
    CalDCG [1; 2] [0; 3]%R [0; 1]%R [1; 1]%R [1; 1]%R 2 [0; 0]%R
      (initialised [])
    = Ok observed (initialised []) /\
    StronglySorted Rle ideal /\ Forall (fun v => (0 <= v)%R) ideal /\
    StronglySorted Rle observed /\ Forall (fun v => (0 <= v)%R) observed.
Proof.
  apply (DCG_grows_with_cutoff [] uninitialised (initialised [])
           [1; 2] 2 [0; 3]%R [0; 1]%R [1; 1]%R [1; 1]%R [0; 0]%R
           (Init_result [] uninitialised));
    try reflexivity; try lia; try (repeat constructor; lia).
  intros j Hj.
  destruct j as [|[|j]]; [exists 0|exists 3|simpl in Hj; lia];
    simpl; (split; [reflexivity|]); (split; [lia|]); split; lra.
Defined.

(** ** ObservedDCGEngine: the order induced by the scores *)

Lemma stable_insert_pure_ext {A} (cmp cmp' : A -> A -> bool) x l :
  (forall y, In y l -> cmp y x = cmp' y x) ->
  stable_insert_pure cmp x l = stable_insert_pure cmp' x l.
Proof.
  induction l as [|y l IH]; intros H; [reflexivity|].
  cbn [stable_insert_pure]. rewrite (H y (or_introl eq_refl)).
  destruct (cmp' y x); [|reflexivity].
  f_equal. apply IH. intros z Hz. apply H. now right.
Qed.

Lemma stable_sort_pure_ext {A} (cmp cmp' : A -> A -> bool) l :
  (forall a b, In a l -> In b l -> cmp a b = cmp' a b) ->
  stable_sort_pure cmp l = stable_sort_pure cmp' l.
Proof.
  induction l as [|x l IH]; intros H; [reflexivity|].
  cbn [stable_sort_pure].
  rewrite IH by (intros a b Ha Hb; apply H; now right).
  apply stable_insert_pure_ext. intros y Hy.
  apply H; [right|now left].
  now apply (Permutation_in _ (Permutation_sym (stable_sort_pure_perm cmp' l))).
Qed.

Lemma Rgt_bool_false x y : (x <= y)%R -> Rgt_bool x y = false.
Proof. intros H. unfold Rgt_bool. destruct (Rgt_dec x y); [lra|reflexivity]. Qed.

(** Scores that never increase along the items leave the items in their
    order. *)
Lemma stable_sort_sorted_input (score : list R) :
  forall m a,
    (forall i j, (a <= i < j)%nat -> (j < a + m)%nat ->
                 (nth j score 0 <= nth i score 0)%R) ->
    stable_sort_pure
      (fun x y => Rgt_bool (nth (Z.to_nat x) score 0%R)
                           (nth (Z.to_nat y) score 0%R))
      (map Z.of_nat (seq a m))
    = map Z.of_nat (seq a m).
Proof.
  induction m as [|m IH]; intros a H; [reflexivity|].
  cbn [seq map stable_sort_pure].
  rewrite IH by (intros i j Hij Hj; apply H; lia).
  destruct m as [|m]; [reflexivity|].
  cbn [seq map stable_insert_pure].
  rewrite !Nat2Z.id, Rgt_bool_false by (apply H; lia).
  reflexivity.
Qed.

Lemma score_order_sorted_input score n :
  (forall i j, (i < j < n)%nat -> (nth j score 0 <= nth i score 0)%R) ->
  score_order score n = map Z.of_nat (seq 0 n).
Proof.
  intros H. apply stable_sort_sorted_input.
  intros i j Hij Hj. apply H. lia.
Qed.

(** X18: the sort by score is stable.  When the scores never increase
    along the items (in particular when they are all equal) the items are
    ranked in their given order: at each cutoff of an ascending list CalDCG
    writes the sum of gain(item j) * discount[j] over the first items. *)
Theorem CalDCG_keeps_order_of_ties (ks : list data_size_t) (n : data_size_t)
    (label : list label_t) (score theta1 theta2 out : list double)
    (st : statics)
    (Hscores : forall i j, (i < j < Z.to_nat n)%nat ->
                           (nth j score 0 <= nth i score 0)%R)
    (Hlabel : Z.of_nat (length label) = n)
    (Hscore : Z.of_nat (length score) = n)
    (Htheta1 : Z.of_nat (length theta1) = n)
    (Htheta2 : Z.of_nat (length theta2) = n)
    (Hdisc : n <= Z.of_nat (length (discount_ st)))
    (Hpos : Forall (fun k => 0 <= k) ks)
    (Hasc : StronglySorted Z.le ks)
    (Hout : (length ks <= length out)%nat) :
  CalDCG ks label score theta1 theta2 n out st
  = Ok (map (fun k =>
               sum_upto (fun j => (item_gain label theta1 theta2 j
                                   * nth j (discount_ st) 0)%R)
                        (Z.to_nat (if k >? n then n else k)))
            ks
        ++ skipn (length ks) out) st.
Proof.
  assert (Hn : 0 <= n) by lia.
  rewrite CalDCG_value; try lia; try assumption.
  rewrite (score_order_sorted_input score (Z.to_nat n) Hscores).
  rewrite (one_pass_ext _
             (fun j => (item_gain label theta1 theta2 j
                        * nth j (discount_ st) 0)%R)); try lia.
  - match goal with |- context [one_pass ?t n ks 0%R 0] =>
      change (one_pass t n ks 0%R 0)
        with (one_pass t n ks (sum_upto t (Z.to_nat 0)) 0) end.
    rewrite one_pass_ascending by (try lia; assumption). reflexivity.
  - intros j Hj.
    rewrite (nth_indep _ 0 (Z.of_nat 0))
      by (rewrite length_map, length_seq; exact Hj).
    rewrite (map_nth Z.of_nat), seq_nth by exact Hj.
    cbn [Nat.add]. now rewrite Nat2Z.id.
Qed.

Lemma CalDCG_keeps_order_of_ties_witness :
  CalDCG [1; 2] [0; 3]%R [5; 5]%R [1; 1]%R [1; 1]%R 2 [0; 0]%R
    (initialised [])
  = Ok (map (fun k =>
               sum_upto (fun j => (item_gain [0; 3]%R [1; 1]%R [1; 1]%R j
                                   * nth j (discount_ (initialised [])) 0)%R)
                        (Z.to_nat (if k >? 2 then 2 else k)))
            [1; 2]
        ++ skipn (length [1; 2]) [0; 0]%R) (initialised []).
Proof.
  apply CalDCG_keeps_order_of_ties; try reflexivity;
    try (repeat constructor; lia).
  - intros i j Hij.
    assert (Hc : (i = 0 /\ j = 1)%nat) by (simpl in Hij; lia).
    destruct Hc as [-> ->]. simpl. lra.
  - pose proof (initialised_discount_length []). lia.
Defined.

Lemma nth_map_seq {A} (f : nat -> A) m j d :
  (j < m)%nat -> nth j (map f (seq 0 m)) d = f j.
Proof.
  intros Hj.
  rewrite (nth_indep _ d (f O)) by (rewrite length_map, length_seq; exact Hj).
  rewrite (map_nth f), seq_nth by exact Hj. reflexivity.
Qed.

Lemma map_seq_sorted_desc (f : nat -> R) :
  forall m a,
    (forall i j, (a <= i < j)%nat -> (j < a + m)%nat -> (f j <= f i)%R) ->
    StronglySorted Rge (map f (seq a m)).
Proof.
  induction m as [|m IH]; intros a H; [constructor|].
  cbn [seq map]. constructor.
  - apply IH. intros i j Hij Hj. apply H; lia.
  - rewrite Forall_forall. intros y Hy.
    apply in_map_iff in Hy. destruct Hy as (j & <- & Hj).
    apply in_seq in Hj. apply Rle_ge, H; lia.
Qed.

Lemma sort_desc_of_sorted l : StronglySorted Rge l -> sort_desc l = l.
Proof.
  intros Hs. unfold sort_desc.
  rewrite <- (rev_involutive l) at 2. f_equal. symmetry.
  apply sort_asc_unique; [apply Permutation_rev|now apply rev_sorted_desc].
Qed.

(** X19: a perfect ranking reaches the ideal.  When neither the scores nor
    the gains increase along the items, CalDCG writes exactly what
    CalMaxDCG writes, for any list of non-negative cutoffs. *)
Theorem perfect_ranking_reaches_ideal (ks : list data_size_t)
    (n : data_size_t) (label : list label_t)
    (score theta1 theta2 out : list double) (st : statics)
    (Hscores : forall i j, (i < j < Z.to_nat n)%nat ->
                           (nth j score 0 <= nth i score 0)%R)
    (Hgains : forall i j, (i < j < Z.to_nat n)%nat ->
                          (item_gain label theta1 theta2 j
                           <= item_gain label theta1 theta2 i)%R)
    (Hlabel : Z.of_nat (length label) = n)
    (Hscore : Z.of_nat (length score) = n)
    (Htheta1 : Z.of_nat (length theta1) = n)
    (Htheta2 : Z.of_nat (length theta2) = n)
    (Hdisc : n <= Z.of_nat (length (discount_ st)))
    (Hpos : Forall (fun k => 0 <= k) ks)
    (Hout : (length ks <= length out)%nat) :
  CalDCG ks label score theta1 theta2 n out st
  = CalMaxDCG ks label theta1 theta2 n out st.
Proof.
  assert (Hn : 0 <= n) by lia.
  rewrite CalDCG_value, CalMaxDCG_value; try lia; try assumption.
  rewrite (score_order_sorted_input score (Z.to_nat n) Hscores).
  rewrite (sort_desc_of_sorted (gains_of label theta1 theta2 (Z.to_nat n)))
    by (apply map_seq_sorted_desc; intros i j Hij Hj; apply Hgains; lia).
  f_equal. f_equal. apply one_pass_ext; try lia.
  intros j Hj.
  rewrite (nth_map_seq Z.of_nat) by exact Hj.
  rewrite Nat2Z.id. unfold gains_of.
  rewrite (nth_map_seq (item_gain label theta1 theta2)) by exact Hj.
  apply Rmult_comm.
Qed.

Lemma perfect_ranking_reaches_ideal_witness :
  CalDCG [2; 1] [3; 0]%R [9; 4]%R [1; 1]%R [1; 1]%R 2 [0; 0]%R
    (initialised [])
  = CalMaxDCG [2; 1] [3; 0]%R [1; 1]%R [1; 1]%R 2 [0; 0]%R (initialised []).
Proof.
  apply perfect_ranking_reaches_ideal; try reflexivity;
    try (repeat constructor; lia).
  - intros i j Hij.
    assert (Hc : (i = 0 /\ j = 1)%nat) by (simpl in Hij; lia).
    destruct Hc as [-> ->]. simpl. lra.
  - intros i j Hij.
    assert (Hc : (i = 0 /\ j = 1)%nat) by (simpl in Hij; lia).
    destruct Hc as [-> ->].
    rewrite (item_gain_IZR [3; 0]%R [1; 1]%R [1; 1]%R 1%nat 0 eq_refl).
    rewrite (item_gain_IZR [3; 0]%R [1; 1]%R [1; 1]%R 0%nat 3 eq_refl).
    rewrite CalGain_3. unfold CalGain; simpl. lra.
  - pose proof (initialised_discount_length []). lia.
Defined.

(** X20: CalDCG uses the scores only to order the items.  Replacing every
    score s by f(s), for a strictly increasing f, changes nothing. *)
Theorem CalDCG_monotone_score_transform (f : R -> R)
    (ks : list data_size_t) (n : data_size_t) (label : list label_t)
    (score theta1 theta2 out : list double) (st : statics)
    (Hf : forall a b, (a < b)%R -> (f a < f b)%R)
    (Hlabel : Z.of_nat (length label) = n)
    (Hscore : Z.of_nat (length score) = n)
    (Htheta1 : Z.of_nat (length theta1) = n)
    (Htheta2 : Z.of_nat (length theta2) = n)
    (Hdisc : n <= Z.of_nat (length (discount_ st)))
    (Hpos : Forall (fun k => 0 <= k) ks)
    (Hout : (length ks <= length out)%nat) :
  CalDCG ks label (map f score) theta1 theta2 n out st
  = CalDCG ks label score theta1 theta2 n out st.
Proof.
  assert (Hn : 0 <= n) by lia.
  assert (Hmap : n <= Z.of_nat (length (map f score))).
  { rewrite length_map. apply Z.eq_le_incl. symmetry. exact Hscore. }
  rewrite (CalDCG_value ks label (map f score)); try lia; try assumption.
  rewrite (CalDCG_value ks label score); try lia; try assumption.
  assert (Horder : score_order (map f score) (Z.to_nat n)
                   = score_order score (Z.to_nat n)).
  { unfold score_order. apply stable_sort_pure_ext.
    intros a b Ha Hb.
    apply in_map_iff in Ha. destruct Ha as (ia & <- & Ha).
    apply in_map_iff in Hb. destruct Hb as (ib & <- & Hb).
    apply in_seq in Ha. apply in_seq in Hb.
    rewrite !Nat2Z.id.
    assert (Hnth : forall i, (i < Z.to_nat n)%nat ->
              nth i (map f score) 0%R = f (nth i score 0%R)).
    { intros i Hi.
      rewrite (nth_indep _ 0%R (f 0%R)); [apply map_nth|].
      apply Nat.lt_le_trans with (Z.to_nat n); [exact Hi|].
      apply Nat.eq_le_incl. rewrite length_map.
      rewrite <- Hscore. apply Nat2Z.id. }
    rewrite !Hnth by lia.
    unfold Rgt_bool.
    destruct (Rgt_dec (f (nth ia score 0%R)) (f (nth ib score 0%R)))
      as [Hfg|Hfg], (Rgt_dec (nth ia score 0%R) (nth ib score 0%R))
      as [Hg|Hg]; try reflexivity; exfalso.
    - destruct (Rtotal_order (nth ia score 0%R) (nth ib score 0%R))
        as [Hlt | [Heq | Hgt]]; [|rewrite Heq in Hfg; lra|lra].
      specialize (Hf _ _ Hlt). lra.
    - apply Hfg. apply Rlt_gt, Hf. lra. }
  now rewrite Horder.
Qed.

Lemma CalDCG_monotone_score_transform_witness :
  CalDCG [1; 2] [0; 3]%R (map (fun s => 2 * s + 1)%R [0; 1]%R)
         [1; 1]%R [1; 1]%R 2 [0; 0]%R (initialised [])
  = CalDCG [1; 2] [0; 3]%R [0; 1]%R [1; 1]%R [1; 1]%R 2 [0; 0]%R
      (initialised []).
Proof.
  apply CalDCG_monotone_score_transform; try reflexivity;
    try (repeat constructor; lia).
  - intros a b Hab. lra.
  - pose proof (initialised_discount_length []). lia.
Defined.

(** ** Validators and engines together *)

(** CheckMetadata on a boundary sequence of valid offsets succeeds exactly
    when no query has more than 10000 items. *)
Lemma CheckMetadata_Ok_iff (qb : list data_size_t) (num_queries : data_size_t)
    (st : statics) :
  num_queries + 1 <= Z.of_nat (length qb) ->
  Forall (fun b => 0 <= b <= int_max) qb ->
  CheckMetadata (mkMetadata (Some qb)) num_queries st = Ok tt st
  <-> (forall i, 0 <= i < num_queries ->
         nth (Z.to_nat (i + 1)) qb 0 - nth (Z.to_nat i) qb 0 <= 10000).
Proof.
  intros Hlen Hrange.
  unfold CheckMetadata; cbn [query_boundaries].
  set (body := fun (i : Z) (_ : unit) =>
                 hi <- read qb (i + 1) ;;
                 lo <- read qb i ;;
                 let num_rows := wrap_int (hi - lo) in
                 if num_rows >? kMaxPosition then raise (Fatal QueryTooLong)
                 else ret tt).
  assert (Hbody : forall i, 0 <= i < num_queries ->
            body i tt st
            = if nth (Z.to_nat (i + 1)) qb 0 - nth (Z.to_nat i) qb 0
                 >? kMaxPosition
              then Err (Fatal QueryTooLong) else Ok tt st).
  { intros i Hi. apply CheckMetadata_body; [lia|lia|assumption]. }
  destruct (Z.gtb_spec num_queries 0) as [Hpos|Hnonpos].
  2:{ split; [intros _ i Hi; lia|reflexivity]. }
  destruct (for_loop_checks 0 num_queries body st)
    as [(E & Hall) | (i & e & Hi & Ei & E)].
  - intros i Hi. rewrite (Hbody i Hi).
    match goal with |- context [if ?c then _ else _] => destruct c end;
      [right; eauto|left; reflexivity].
  - split; [|intros _; exact E].
    intros _ i Hi. specialize (Hall i Hi). rewrite (Hbody i Hi) in Hall.
    match type of Hall with context [?a >? ?b] =>
      destruct (Z.gtb_spec a b) end; [discriminate|].
    unfold kMaxPosition in *; lia.
  - rewrite E. split; [discriminate|].
    intros Hsmall. specialize (Hsmall i Hi).
    rewrite (Hbody i Hi) in Ei.
    match type of Ei with context [?a >? ?b] =>
      destruct (Z.gtb_spec a b) end; [|discriminate].
    unfold kMaxPosition in *; lia.
Qed.

(** X21: CheckMetadata is what keeps the engines inside the discount table.
    After Init, when CheckMetadata has accepted the boundaries, CalMaxDCG
    and CalDCG on the items of any query (as many items as the difference
    of its two boundaries) return a result and raise no error, for any
    list of non-negative cutoffs. *)
Theorem CheckMetadata_guards_engines (lg : list double) (st0 st : statics)
    (qb : list data_size_t) (num_queries i : data_size_t)
    (ks : list data_size_t) (label : list label_t)
    (score theta1 theta2 out : list double)
    (Hinit : Init lg st0 = Ok tt st)
    (Hlen : num_queries + 1 <= Z.of_nat (length qb))
    (Hrange : Forall (fun b => 0 <= b <= int_max) qb)
    (Hmeta : CheckMetadata (mkMetadata (Some qb)) num_queries st = Ok tt st)
    (Hi : 0 <= i < num_queries)
    (Hordered : nth (Z.to_nat i) qb 0 <= nth (Z.to_nat (i + 1)) qb 0)
    (Hlabel : Z.of_nat (length label)
              = nth (Z.to_nat (i + 1)) qb 0 - nth (Z.to_nat i) qb 0)
    (Hscore : length score = length label)
    (Htheta1 : length theta1 = length label)
    (Htheta2 : length theta2 = length label)
    (Hpos : Forall (fun k => 0 <= k) ks)
    (Hout : (length ks <= length out)%nat) :
  exists ideal observed,
    CalMaxDCG ks label theta1 theta2 (Z.of_nat (length label)) out st
    = Ok ideal st /\
    CalDCG ks label score theta1 theta2 (Z.of_nat (length label)) out st
    = Ok observed st /\
    length ideal = length out /\ length observed = length out.
Proof.
  apply Init_initialised in Hinit. subst st.
  pose proof (initialised_discount_length lg) as Hd.
  pose proof (proj1 (CheckMetadata_Ok_iff qb num_queries (initialised lg)
                       Hlen Hrange) Hmeta i Hi) as Hrows.
  assert (Hcap : Z.of_nat (length label)
                 <= Z.of_nat (length (discount_ (initialised lg)))).
  { rewrite Hd, Hlabel. exact Hrows. }
  assert (Hs : Z.of_nat (length label) <= Z.of_nat (length score))
    by (rewrite Hscore; apply Z.le_refl).
  assert (H1 : Z.of_nat (length label) <= Z.of_nat (length theta1))
    by (rewrite Htheta1; apply Z.le_refl).
  assert (H2 : Z.of_nat (length label) <= Z.of_nat (length theta2))
    by (rewrite Htheta2; apply Z.le_refl).
  do 2 eexists. split; [|split; [|split]].
  - apply CalMaxDCG_value; try assumption;
      [apply Nat2Z.is_nonneg|apply Z.le_refl].
  - apply CalDCG_value; try assumption;
      [apply Nat2Z.is_nonneg|apply Z.le_refl].
  - rewrite length_app, one_pass_length, length_skipn.
    rewrite Nat.add_comm. apply Nat.sub_add. exact Hout.
  - rewrite length_app, one_pass_length, length_skipn.
    rewrite Nat.add_comm. apply Nat.sub_add. exact Hout.
Qed.

Lemma CheckMetadata_guards_engines_witness :
  exists ideal observed,
    CalMaxDCG [1; 5] [0; 3]%R [1; 1]%R [1; 1]%R
      (Z.of_nat (length [0; 3]%R)) [0; 0]%R (initialised [])
    = Ok ideal (initialised []) /\
    CalDCG [1; 5] [0; 3]%R [0; 1]%R [1; 1]%R [1; 1]%R
      (Z.of_nat (length [0; 3]%R)) [0; 0]%R (initialised [])
    = Ok observed (initialised []) /\
    length ideal = length [0; 0]%R /\ length observed = length [0; 0]%R.
Proof.
  apply (CheckMetadata_guards_engines [] uninitialised (initialised [])
           [0; 2; 5] 2 0 [1; 5] [0; 3]%R [0; 1]%R [1; 1]%R [1; 1]%R
           [0; 0]%R (Init_result [] uninitialised));
    try reflexivity; try (simpl; lia);
    repeat constructor; unfold int_max; lia.
Defined.

(** CheckLabel succeeds exactly when none of the labels it visits is one
    it rejects. *)
Lemma CheckLabel_Ok_iff (kEpsilon : double) (label : list label_t)
    (num_data : data_size_t) (st : statics) :
  num_data <= Z.of_nat (length label) ->
  CheckLabel kEpsilon label num_data st = Ok tt st
  <-> (forall i, 0 <= i < num_data ->
         ~ invalid_label kEpsilon (length (label_gain_ st))
             (nth (Z.to_nat i) label 0%R)).
Proof.
  intros Hlen. unfold CheckLabel.
  match goal with |- for_loop 0 num_data ?b tt st = _ <-> _ =>
    set (body := b) end.
  assert (Hbody : forall i, 0 <= i < num_data ->
            (invalid_label kEpsilon (length (label_gain_ st))
               (nth (Z.to_nat i) label 0%R) ->
             exists why, body i tt st = Err (Fatal why)) /\
            (~ invalid_label kEpsilon (length (label_gain_ st))
               (nth (Z.to_nat i) label 0%R) ->
             body i tt st = Ok tt st)).
  { intros i Hi. apply CheckLabel_body.
    split; [lia|]. apply Z.lt_le_trans with num_data; [lia|exact Hlen]. }
  destruct (for_loop_checks 0 num_data body st)
    as [(E & Hall) | (i & e & Hi & Ei & E)].
  - intros i Hi. destruct (Hbody i Hi) as [Hbad Hgood].
    destruct (invalid_label_dec kEpsilon (length (label_gain_ st))
                (nth (Z.to_nat i) label 0%R)) as [Hb|Hb].
    + destruct (Hbad Hb) as (why & Ew). right; eauto.
    + left; auto.
  - split; [|intros _; exact E].
    intros _ i Hi Hb. destruct (Hbody i Hi) as [Hbad _].
    destruct (Hbad Hb) as (why & Ew).
    rewrite (Hall i Hi) in Ew. discriminate.
  - rewrite E. split; [discriminate|].
    intros Hgood. destruct (Hbody i Hi) as [_ Hok].
    rewrite (Hok (Hgood i Hi)) in Ei. discriminate.
Qed.

(** X22: CheckLabel keeps CalGain away from the overflow of [1 << l].
    With a label-gain table of at most 31 entries (the size of the default
    table), every label CheckLabel has accepted truncates to an integer l
    from 0 to 30 that indexes the table and lies within the tolerance of
    the label, and for l >= 3 the gain of the item is exactly 2^l - 1. *)
Theorem CheckLabel_excludes_gain_overflow (kEpsilon : double)
    (label : list label_t) (theta1 theta2 : list double)
    (num_data : data_size_t) (st : statics) (j : nat)
    (Hlen : num_data <= Z.of_nat (length label))
    (Htable : (length (label_gain_ st) <= 31)%nat)
    (Hok : CheckLabel kEpsilon label num_data st = Ok tt st)
    (Hj : Z.of_nat j < num_data) :
  let l := static_cast_int (nth j label 0%R) in
  0 <= l < Z.of_nat (length (label_gain_ st)) /\
  l <= 30 /\
  (Rabs (nth j label 0 - IZR l) <= kEpsilon)%R /\
  (3 <= l -> item_gain label theta1 theta2 j = IZR (2 ^ l - 1)).
Proof.
  intros l.
  assert (Hvalid := proj1 (CheckLabel_Ok_iff kEpsilon label num_data st Hlen)
                      Hok (Z.of_nat j) ltac:(lia)).
  rewrite Nat2Z.id in Hvalid. unfold invalid_label in Hvalid.
  fold l in Hvalid.
  assert (Hnonneg : (0 <= nth j label 0)%R).
  { destruct (Rle_dec 0 (nth j label 0%R)) as [H|H]; [exact H|].
    exfalso. apply Hvalid. right; left. lra. }
  assert (Hlt : l < Z.of_nat (length (label_gain_ st))).
  { destruct (Z.lt_ge_cases l (Z.of_nat (length (label_gain_ st))))
      as [H|H]; [exact H|].
    exfalso. apply Hvalid. right; right.
    rewrite INR_IZR_INZ.
    apply (static_cast_int_nonneg_ge (nth j label 0%R)); assumption. }
  assert (Hl0 : 0 <= l).
  { apply (static_cast_int_nonneg_ge (nth j label 0%R)); [exact Hnonneg|].
    exact Hnonneg. }
  split; [lia|]. split; [lia|]. split.
  - destruct (Rle_dec (Rabs (nth j label 0%R - IZR l)) kEpsilon) as [H|H];
      [exact H|].
    exfalso. apply Hvalid. left. lra.
  - intros H3. unfold item_gain. fold l. unfold CalGain.
    destruct (Z.eqb_spec l 0); [lia|].
    destruct (Z.eqb_spec l 1); [lia|].
    destruct (Z.eqb_spec l 2); [lia|].
    rewrite shift_gain_exact by lia. reflexivity.
Qed.

Lemma CheckLabel_excludes_gain_overflow_witness :
  let l := static_cast_int (nth 1 [0; 3]%R 0%R) in
  0 <= l < Z.of_nat (length (label_gain_ (mkStatics [0; 1; 3; 7]%R []))) /\
  l <= 30 /\
  (Rabs (nth 1 [0; 3]%R 0 - IZR l) <= 0)%R /\
  (3 <= l -> item_gain [0; 3]%R [1; 1]%R [1; 1]%R 1 = IZR (2 ^ l - 1)).
Proof.
  apply (CheckLabel_excludes_gain_overflow 0%R [0; 3]%R [1; 1]%R [1; 1]%R 2
           (mkStatics [0; 1; 3; 7]%R []) 1%nat);
    [simpl; lia|simpl; lia| |simpl; lia].
  apply CheckLabel_Ok_iff; [simpl; lia|].
  intros i Hi.
  assert (Hc : i = 0 \/ i = 1) by lia.
  unfold invalid_label.
  destruct Hc as [-> | ->];
    [change (Z.to_nat 0) with 0%nat|change (Z.to_nat 1) with 1%nat];
    cbn [nth label_gain_ length].
  - rewrite (static_cast_int_IZR 0), Rminus_diag, Rabs_R0.
    cbn [INR]. intros [H | [H | H]]; lra.
  - rewrite (static_cast_int_IZR 3), Rminus_diag, Rabs_R0.
    cbn [INR]. intros [H | [H | H]]; lra.
Defined.
